(** * cache-search: an inverted index behind a five-slot LRU cache

    A shallow embedding of [cache-search.c] and the properties of its
    hash table, document lists, tokenizer, cache and query loop.

    Conventions of the embedding.
    - A C string ([char *] to a NUL-terminated buffer) is the [string] of
      the bytes before the terminator.
    - A [FileNode *] is the [list string] of the names reachable from it;
      the null pointer is the empty list.  Nodes are never written after
      they are linked, so a pointer held elsewhere (the cache) keeps
      denoting the same list.
    - Undefined behaviour (reading or writing an array out of bounds,
      [strcmp] on a null pointer) is the result [None] of a function of
      type [... -> option _]; [Some] is a defined execution.
    - [malloc] may return null: the allocator is a script of outcomes
      that the insertions consume, one per call.
    - [stdout] is the string a function returns besides its result.
    - [unsigned long] is 64 bits wide, [int] values stay far from their
      limits and are integers in [Z]. *)

From Stdlib Require Import ZArith Lia Ascii String.
From stdpp Require Import base option list strings.

Local Open Scope string_scope.
Local Open Scope list_scope.
Local Open Scope Z_scope.

(** ** Characters: the C locale of <ctype.h> *)

Definition uchar (c : ascii) : Z := Z.of_N (N_of_ascii c).

Definition isdigit (c : ascii) : bool := (48 <=? uchar c) && (uchar c <=? 57).
Definition isupper (c : ascii) : bool := (65 <=? uchar c) && (uchar c <=? 90).
Definition islower (c : ascii) : bool := (97 <=? uchar c) && (uchar c <=? 122).
Definition isalnum (c : ascii) : bool := isdigit c || isupper c || islower c.

Definition tolower (c : ascii) : ascii :=
  if isupper c then ascii_of_N (Z.to_N (uchar c + 32)) else c.

(** ** Data *)

(** [struct WordEntry]: the [next] pointer is the tail of the chain the
    entry sits in. *)
Record WordEntry := mkWordEntry {
  we_word : string;
  we_files : list string
}.

(** [struct CacheSlot]: [word] may be null, and is in the slots of the
    zero-initialised static array that were never written. *)
Record CacheSlot := mkCacheSlot {
  slot_word : option string;
  slot_files : list string
}.

Definition CACHE_CAP : Z := 5.
Definition HASH_SIZE : Z := 10007.
Definition ULONG_WIDTH : Z := 64.

(** [cache_slots] and [cache_count]. *)
Record Cache := mkCache {
  cache_slots : list CacheSlot;
  cache_count : Z
}.

(** The allocator: the outcomes of the calls of [malloc] to come, in
    order ([false]: the call returns null); past the end of the script
    every call succeeds. *)
Definition Heap := list bool.

Definition malloc (h : Heap) : bool * Heap :=
  match h with
  | [] => (true, [])
  | b :: h' => (b, h')
  end.

(** [hash_table] with the allocator the insertions draw from. *)
Record Index := mkIndex {
  hash_table : list (list WordEntry);
  heap : Heap
}.

(** ** The hash function *)

Definition ulong (z : Z) : Z := z mod 2 ^ ULONG_WIDTH.

(** The loop of [hash_str], [h] its accumulator. *)
Fixpoint hash_loop (s : string) (h : Z) : Z :=
  match s with
  | EmptyString => h
  | String c s' => hash_loop s' (ulong (ulong (ulong (Z.shiftl h 5) + h) + uchar c))
  end.

Definition hash_str (s : string) : Z := hash_loop s 5381 mod HASH_SIZE.

(** ** Document lists *)

Fixpoint filelist_contains (head : list string) (filename : string) : bool :=
  match head with
  | [] => false
  | name :: next => if String.eqb name filename then true else filelist_contains next filename
  end.

(** [add_file_to_list] returns the entry as the call leaves it.  Its
    callers pass a non-null entry, so the guard on [e] is not modelled. *)
Definition add_file_to_list (e : WordEntry) (filename : string) (h : Heap)
  : WordEntry * Heap :=
  if filelist_contains (we_files e) filename then (e, h)
  else
    let '(node, h1) := malloc h in
    if negb node then (e, h1)
    else
      let '(name, h2) := malloc h1 in
      if negb name then (e, h2)
      else (mkWordEntry (we_word e) (filename :: we_files e), h2).

(** ** The hash table *)

(** The chain walk of [find_word_entry]; [None] is the null pointer. *)
Fixpoint chain_find (p : list WordEntry) (word : string) : option WordEntry :=
  match p with
  | [] => None
  | e :: next => if String.eqb (we_word e) word then Some e else chain_find next word
  end.

Definition find_word_entry (word : string) (tbl : list (list WordEntry))
  : option (option WordEntry) :=
  let idx := hash_str word in
  p ← tbl !! Z.to_nat idx;
  Some (chain_find p word).

(** The chain walk of [insert_word]: the chain after [add_file_to_list]
    on the first entry that holds [word], or [None] when the walk falls
    off the end of the chain. *)
Fixpoint chain_insert (p : list WordEntry) (word filename : string) (h : Heap)
  : option (list WordEntry * Heap) :=
  match p with
  | [] => None
  | e :: next =>
      if String.eqb (we_word e) word then
        let '(e', h') := add_file_to_list e filename h in Some (e' :: next, h')
      else
        match chain_insert next word filename h with
        | Some (next', h') => Some (e :: next', h')
        | None => None
        end
  end.

Definition insert_word (word : option string) (filename : string) (ix : Index)
  : option Index :=
  match word with
  | None => Some ix
  | Some "" => Some ix
  | Some w =>
      let idx := Z.to_nat (hash_str w) in
      p ← hash_table ix !! idx;
      match chain_insert p w filename (heap ix) with
      | Some (p', h') => Some (mkIndex (<[idx := p']> (hash_table ix)) h')
      | None =>
          (* not found, make new entry *)
          let '(e, h1) := malloc (heap ix) in
          if negb e then Some (mkIndex (hash_table ix) h1)
          else
            let '(w', h2) := malloc h1 in
            if negb w' then Some (mkIndex (hash_table ix) h2)
            else
              let '(e', h3) := add_file_to_list (mkWordEntry w []) filename h2 in
              Some (mkIndex (<[idx := e' :: p]> (hash_table ix)) h3)
      end
  end.

(** The table as the program starts: every bucket null. *)
Definition hash_table_init : list (list WordEntry) :=
  replicate (Z.to_nat HASH_SIZE) [].

(** ** Parsing a file *)

Definition strlen (s : string) : Z := Z.of_nat (String.length s).

(** The body of [index_file] after [fopen]: [input] is what [fgetc] still
    has to deliver, [buf] the first [len] bytes of the buffer.  The call
    of [insert_word] is the parameter [emit], so that the same loop run
    with a recording [emit] yields the words it passes on. *)
Section Scan.
Context {St : Type} (emit : string -> St -> option St).

Fixpoint scan (input : string) (buf : string) (st : St) : option St :=
  match input with
  | EmptyString => if 0 <? strlen buf then emit buf st else Some st
  | String ch rest =>
      if isalnum ch then
        if strlen buf <? 256 - 1
        then scan rest (buf +:+ String (tolower ch) EmptyString) st
        else scan rest buf st
      else if 0 <? strlen buf then st' ← emit buf st; scan rest EmptyString st'
      else scan rest buf st
  end.
End Scan.

(** The file system: what [fopen] and [fgetc] find under a path. *)
Definition Files := string -> option string.

Definition index_file (fs : Files) (fullpath displayname : string) (ix : Index)
  : option Index :=
  match fs fullpath with
  | None => Some ix
  | Some content => scan (fun w => insert_word (Some w) displayname) content EmptyString ix
  end.

(** The words [index_file] passes to [insert_word], in order. *)
Definition tokens (content : string) : list string :=
  default [] (scan (fun w log => Some (log ++ [w])) content EmptyString []).

Definition sample_full_paths : list string :=
  ["texts/doc1.txt"; "texts/doc2.txt"; "texts/doc3.txt"].
Definition sample_basenames : list string :=
  ["doc1.txt"; "doc2.txt"; "doc3.txt"].

(** The loop of [index_static_files] from [i] on, [n] iterations left. *)
Fixpoint index_static_from (fs : Files) (n i : nat) (ix : Index) : option Index :=
  match n with
  | O => Some ix
  | S n' =>
      full ← sample_full_paths !! i;
      base ← sample_basenames !! i;
      ix' ← index_file fs full base ix;
      index_static_from fs n' (S i) ix'
  end.

Definition index_static_files (fs : Files) (ix : Index) : option Index :=
  index_static_from fs (length sample_full_paths) 0 ix.

(** ** The cache *)

Definition cache_init : Cache :=
  mkCache (replicate (Z.to_nat CACHE_CAP) (mkCacheSlot None [])) 0.

(** [a[i] = x] on an array. *)
Definition store {A} (a : list A) (i : nat) (x : A) : option (list A) :=
  if decide (i < length a)%nat then Some (<[i := x]> a) else None.

(** The loop of [cache_index_of] from [i] on, [n] iterations left. *)
Fixpoint cache_index_from (slots : list CacheSlot) (word : string) (n i : nat)
  : option Z :=
  match n with
  | O => Some (-1)
  | S n' =>
      s ← slots !! i;
      w ← slot_word s;
      if String.eqb w word then Some (Z.of_nat i)
      else cache_index_from slots word n' (S i)
  end.

Definition cache_index_of (word : string) (c : Cache) : option Z :=
  cache_index_from (cache_slots c) word (Z.to_nat (cache_count c)) 0.

(** [for (j = idx; j > 0; --j) cache_slots[j] = cache_slots[j - 1];] *)
Fixpoint shift_back (j : nat) (slots : list CacheSlot) : option (list CacheSlot) :=
  match j with
  | O => Some slots
  | S j' =>
      s ← slots !! j';
      slots' ← store slots (S j') s;
      shift_back j' slots'
  end.

Definition cache_get (word : string) (c : Cache) : option (list string * Cache) :=
  idx ← cache_index_of word c;
  if idx <? 0 then Some ([], c)
  else
    hit ← cache_slots c !! Z.to_nat idx;
    slots1 ← shift_back (Z.to_nat idx) (cache_slots c);
    slots2 ← store slots1 0 hit;
    front ← slots2 !! 0%nat;
    Some (slot_files front, mkCache slots2 (cache_count c)).

Definition cache_put (word_ptr_in_table : option string) (files : list string)
  (c : Cache) : option Cache :=
  match word_ptr_in_table, files with
  | None, _ => Some c
  | Some _, [] => Some c
  | Some w, _ :: _ =>
      idx ← cache_index_of w c;
      if 0 <=? idx then
        (* update and move to front *)
        s ← cache_slots c !! Z.to_nat idx;
        slots1 ← store (cache_slots c) (Z.to_nat idx) (mkCacheSlot (slot_word s) files);
        hit ← slots1 !! Z.to_nat idx;
        slots2 ← shift_back (Z.to_nat idx) slots1;
        slots3 ← store slots2 0 hit;
        Some (mkCache slots3 (cache_count c))
      else
        (* insert at front, remove from end *)
        let limit :=
          if cache_count c <? CACHE_CAP then cache_count c else CACHE_CAP - 1 in
        slots1 ← shift_back (Z.to_nat limit) (cache_slots c);
        s0 ← slots1 !! 0%nat;
        slots2 ← store slots1 0 (mkCacheSlot (Some w) (slot_files s0));
        s1 ← slots2 !! 0%nat;
        slots3 ← store slots2 0 (mkCacheSlot (slot_word s1) files);
        Some (mkCache slots3
                (if cache_count c <? CACHE_CAP then cache_count c + 1 else cache_count c))
  end.

(** ** Queries *)

Definition nl : string := String (ascii_of_nat 10) EmptyString.
Definition cr : string := String (ascii_of_nat 13) EmptyString.

(** The result, the cache afterwards and what was written to [stdout]. *)
Definition lookup_with_cache (word : string) (tbl : list (list WordEntry)) (c : Cache)
  : option (list string * Cache * string) :=
  '(files, c1) ← cache_get word c;
  match files with
  | _ :: _ => Some (files, c1, "from cache" +:+ nl)
  | [] =>
      e ← find_word_entry word tbl;
      match e with
      | Some (mkWordEntry w (f :: fl)) =>
          c2 ← cache_put (Some w) (f :: fl) c1;
          Some (f :: fl, c2, "from hash table" +:+ nl)
      | _ => Some ([], c1, EmptyString)
      end
  end.

Fixpoint normalize_word_inplace (s : string) : string :=
  match s with
  | EmptyString => EmptyString
  | String c r =>
      if isalnum c then String (tolower c) (normalize_word_inplace r)
      else normalize_word_inplace r
  end.

(** The loop of [print_files]: the output and the final [count]. *)
Fixpoint print_files_from (p : list string) (count : Z) : string * Z :=
  match p with
  | [] => (EmptyString, count)
  | name :: next =>
      let head := if count =? 0 then "found in: " else EmptyString in
      let sep := match next with [] => nl | _ :: _ => " " end in
      let '(out, count') := print_files_from next (count + 1) in
      (head +:+ name +:+ sep +:+ out, count')
  end.

Definition print_files (files : list string) : string :=
  let '(out, count) := print_files_from files 0 in
  if count =? 0 then out +:+ "not found" +:+ nl else out.

(** The line as [main] has it once the newline is stripped. *)
Definition strip_newline (line : string) : string :=
  let n := String.length line in
  match String.get (n - 1)%nat line with
  | Some last =>
      if (0 <? strlen line) && (Ascii.eqb last (ascii_of_nat 10) || Ascii.eqb last (ascii_of_nat 13))
      then String.substring 0 (n - 1)%nat line
      else line
  | None => line
  end.

(** What [main] does with a non-empty stripped line: the cache
    afterwards and the output. *)
Definition serve (line : string) (tbl : list (list WordEntry)) (c : Cache)
  : option (Cache * string) :=
  let word := normalize_word_inplace line in
  match word with
  | EmptyString => Some (c, "pls type letters/numbers" +:+ nl)
  | _ =>
      '(files, c', out) ← lookup_with_cache word tbl c;
      match files with
      | _ :: _ => Some (c', out +:+ print_files files)
      | [] => Some (c', out +:+ "not found" +:+ nl)
      end
  end.

(** The loop of [main]; [stdin] lists what the calls of [fgets] return,
    and [fgets] returns null once it is used up. *)
Fixpoint main_loop (stdin : list string) (tbl : list (list WordEntry)) (c : Cache)
  : option string :=
  match stdin with
  | [] => Some "> "
  | line :: rest =>
      let line' := strip_newline line in
      if strlen line' =? 0 then Some "> "
      else
        '(c', out) ← serve line' tbl c;
        out' ← main_loop rest tbl c';
        Some ("> " +:+ out +:+ out')
  end.

Definition main (fs : Files) (stdin : list string) (h : Heap) : option string :=
  ix ← index_static_files fs (mkIndex hash_table_init h);
  out ← main_loop stdin (hash_table ix) cache_init;
  Some ("indexed files from ./texts (doc1.txt, doc2.txt, doc3.txt)" +:+ nl
        +:+ "type a word to search (empty line to quit)" +:+ nl +:+ out).

(** * Specification-level definitions *)

(** ** The cache seen through its occupied slots *)

(** The slot is that of [word]. *)
Definition holds (word : string) (s : CacheSlot) : Prop := slot_word s = Some word.

#[local] Instance holds_dec word s : Decision (holds word s).
Proof. unfold holds. apply _. Defined.

(** The index of the first slot of [word] in a list of slots, or -1:
    what [cache_index_of] computes on the occupied slots. *)
Definition slot_index (word : string) (l : list CacheSlot) : Z :=
  match list_find (holds word) l with
  | Some (k, _) => Z.of_nat k
  | None => -1
  end.

(** The occupied slots: the first [cache_count] of the array. *)
Definition live (c : Cache) : list CacheSlot :=
  take (Z.to_nat (cache_count c)) (cache_slots c).

(** A well-formed cache: the array has its [CACHE_CAP] slots, the
    counter is in range and every occupied slot has a word, so that no
    loop of the cache code leaves the array or compares a null word. *)
Record cache_wf (c : Cache) : Prop := mk_cache_wf {
  wf_length : length (cache_slots c) = Z.to_nat CACHE_CAP;
  wf_count : 0 <= cache_count c <= CACHE_CAP;
  wf_words : Forall (fun s => is_Some (slot_word s)) (live c)
}.

(** The variable [limit] of [cache_put]. *)
Definition put_limit (c : Cache) : Z :=
  if cache_count c <? CACHE_CAP then cache_count c else CACHE_CAP - 1.

(** [CACHE_CAP] as a length. *)
Definition CAP : nat := Z.to_nat CACHE_CAP.

(** The words of the occupied slots, most recently used first. *)
Definition cached_words (c : Cache) : list string := omap slot_word (live c).

(** What the cache code maintains: the array and its counter are in
    range, no word sits in two occupied slots, and every occupied slot
    holds a word and a non-null list. *)
Record cache_inv (c : Cache) : Prop := mk_cache_inv {
  inv_wf : cache_wf c;
  inv_nodup : NoDup (slot_word <$> live c);
  inv_files : Forall (fun s => slot_files s <> []) (live c)
}.

(** Calls of the cache interface and the states they reach. *)
Inductive cache_op :=
  | Get (word : string)
  | Put (word : option string) (files : list string).

Definition cache_step (op : cache_op) (c : Cache) : option Cache :=
  match op with
  | Get word => snd <$> cache_get word c
  | Put word files => cache_put word files c
  end.

Fixpoint cache_run (ops : list cache_op) (c : Cache) : option Cache :=
  match ops with
  | [] => Some c
  | op :: ops' => c' ← cache_step op c; cache_run ops' c'
  end.

(** ** Concrete states used as examples *)

Definition two_slots : Cache :=
  mkCache [mkCacheSlot (Some "b") ["y"]; mkCacheSlot (Some "a") ["x"];
           mkCacheSlot None []; mkCacheSlot None []; mkCacheSlot None []] 2.

Definition five_puts : list cache_op :=
  [Put (Some "a") ["1"]; Put (Some "b") ["2"]; Put (Some "c") ["3"];
   Put (Some "d") ["4"]; Put (Some "e") ["5"]].

Definition full_cache : Cache :=
  mkCache [mkCacheSlot (Some "e") ["5"]; mkCacheSlot (Some "d") ["4"];
           mkCacheSlot (Some "c") ["3"]; mkCacheSlot (Some "b") ["2"];
           mkCacheSlot (Some "a") ["1"]] 5.

(** ** Query traces *)

(** The index holds [w] with a non-null list: what [lookup_with_cache]
    asks of [find_word_entry] before it serves. *)
Definition indexed (tbl : list (list WordEntry)) (w : string) : Prop :=
  exists e, find_word_entry w tbl = Some (Some e) /\ we_files e <> [].

(** One call of [lookup_with_cache] as seen from outside: the word, the
    line printed, and the words that were cached before the call and are
    not after it. *)
Record step := mkStep {
  st_word : string;
  st_out : string;
  st_evicted : list string
}.

Fixpoint lookups (tbl : list (list WordEntry)) (qs : list string) (c : Cache)
  : option (list step * Cache) :=
  match qs with
  | [] => Some ([], c)
  | q :: qs' =>
      '(_, c', out) ← lookup_with_cache q tbl c;
      '(steps, c'') ← lookups tbl qs' c';
      Some (mkStep q out (list_difference (cached_words c) (cached_words c')) :: steps, c'')
  end.

(** [w] was queried, and not evicted in any later step. *)
Definition queried_since_evicted (w : string) (steps : list step) : Prop :=
  exists pre s post,
    steps = pre ++ s :: post /\ st_word s = w /\
    Forall (fun s' => w ∉ st_evicted s') post.

(** The two provenance lines of [lookup_with_cache]. *)
Definition from_cache : string := "from cache" +:+ nl.
Definition from_hash_table : string := "from hash table" +:+ nl.

(** ** The two-document scenario *)

Definition scenario_files : Files := fun path =>
  if String.eqb path "texts/doc1.txt" then Some "apple banana"
  else if String.eqb path "texts/doc2.txt" then Some "banana cherry"
  else None.

(** The index once [doc1.txt] and then [doc2.txt] are parsed, no
    allocation failing. *)
Definition scenario_index : option Index :=
  ix ← index_file scenario_files "texts/doc1.txt" "doc1.txt" (mkIndex hash_table_init []);
  index_file scenario_files "texts/doc2.txt" "doc2.txt" ix.

Definition scenario_table : list (list WordEntry) :=
  default hash_table_init (hash_table <$> scenario_index).

(** ** Tokens *)

(** [emit] on each word of a list in turn. *)
Fixpoint emit_all {St : Type} (emit : string -> St -> option St)
  (ws : list string) (st : St) : option St :=
  match ws with
  | [] => Some st
  | w :: ws' => st' ← emit w st; emit_all emit ws' st'
  end.

(** The words [scan] passes on when it starts with [buf] pending. *)
Definition tokens_from (content buf : string) : list string :=
  default [] (scan (fun w log => Some (log ++ [w])) content buf []).

(** A character a token may hold: alphanumeric and not upper case. *)
Definition token_char (ch : ascii) : Prop := isalnum ch = true /\ tolower ch = ch.

Definition token_ok (t : string) : Prop :=
  t <> EmptyString /\ Forall token_char (list_ascii_of_string t).

(** ** Sequences of insertions *)

(** Calls of [insert_word], each with its word and file name. *)
Fixpoint insert_all (calls : list (option string * string)) (ix : Index)
  : option Index :=
  match calls with
  | [] => Some ix
  | (word, filename) :: rest => ix' ← insert_word word filename ix; insert_all rest ix'
  end.

(** How often [d] occurs in a list. *)
Definition occurrences (d : string) (l : list string) : nat :=
  length (filter (fun x => x = d) l).

(** No call of [malloc] returns null. *)
Definition never_fails (h : Heap) : Prop := Forall (fun b => b = true) h.

(** What a table has when insertions built it: [HASH_SIZE] buckets and
    no name twice in the list of an entry. *)
Definition table_ok (tbl : list (list WordEntry)) : Prop :=
  length tbl = Z.to_nat HASH_SIZE /\
  Forall (Forall (fun e => NoDup (we_files e))) tbl.

(** ** The cache against the index *)

(** Every occupied slot holds the list that the index has for its word. *)
Definition coherent (tbl : list (list WordEntry)) (c : Cache) : Prop :=
  Forall (fun s => exists w,
              slot_word s = Some w /\
              find_word_entry w tbl = Some (Some (mkWordEntry w (slot_files s))))
         (live c).

(** The index once a file holding six words is parsed. *)
Definition six_words_table : list (list WordEntry) :=
  default hash_table_init
    (hash_table <$> index_file (fun _ => Some "one two three four five six")
                      "texts/doc1.txt" "doc1.txt" (mkIndex hash_table_init [])).

(** A run of 300 letters, longer than the buffer of [index_file]. *)
Definition long_run : string := string_of_list_ascii (replicate 300 "A"%char).

(** ** The index as a map from words to lists *)

(** The list the table holds for [w]: what a lookup can serve.  It is
    null when the table has no entry for [w], and when the entry has no
    file yet. *)
Definition files_of (tbl : list (list WordEntry)) (w : string) : list string :=
  match find_word_entry w tbl with
  | Some (Some e) => we_files e
  | _ => []
  end.

(** One insertion on the list of [w]: the name goes in front when the
    insertion is for [w], [w] is not empty and the name is new. *)
Definition add_doc (word : option string) (d w : string) (acc : list string)
  : list string :=
  if decide (word = Some w /\ w <> EmptyString /\ d ∉ acc) then d :: acc else acc.

(** The list of [w] after a sequence of insertions, from [acc]. *)
Fixpoint docs_after (calls : list (option string * string)) (w : string)
  (acc : list string) : list string :=
  match calls with
  | [] => acc
  | (word, d) :: rest => docs_after rest w (add_doc word d w acc)
  end.

(** Every entry of a chain sits in the bucket of its hash and has a
    non-empty word, and no word has two entries. *)
Definition chain_ok (i : nat) (p : list WordEntry) : Prop :=
  NoDup (we_word <$> p) /\
  Forall (fun e => Z.to_nat (hash_str (we_word e)) = i /\ we_word e <> EmptyString) p.

Definition table_shape (tbl : list (list WordEntry)) : Prop :=
  length tbl = Z.to_nat HASH_SIZE /\
  forall i p, tbl !! i = Some p -> chain_ok i p.

(** ** Parsing as insertions *)

(** The calls of [insert_word] that [index_file] makes for a file. *)
Definition file_calls (fs : Files) (fullpath displayname : string)
  : list (option string * string) :=
  match fs fullpath with
  | None => []
  | Some content => (fun t => (Some t, displayname)) <$> tokens content
  end.

(** The calls that [index_static_files] makes, file after file. *)
Definition static_calls (fs : Files) : list (option string * string) :=
  concat (zip_with (file_calls fs) sample_full_paths sample_basenames).

(** ** The cache as a recency list *)

(** The word and the list of an occupied slot. *)
Definition bind_of (s : CacheSlot) : option (string * list string) :=
  w ← slot_word s; Some (w, slot_files s).

(** The cache as the list of its bindings, most recently used first. *)
Definition cached (c : Cache) : list (string * list string) :=
  omap bind_of (live c).

(** The list model of a least-recently-used cache of [CACHE_CAP]
    bindings: a hit moves the binding to the front; a put places the
    binding in front, replacing the one the word had, and the list is cut
    to the capacity. *)
Definition lru_without (w : string) (l : list (string * list string))
  : list (string * list string) :=
  filter (fun b => b.1 <> w) l.

Definition lru_get (w : string) (l : list (string * list string))
  : list string * list (string * list string) :=
  match list_find (fun b => b.1 = w) l with
  | Some (_, b) => (b.2, b :: lru_without w l)
  | None => ([], l)
  end.

Definition lru_put (w : string) (files : list string) (l : list (string * list string))
  : list (string * list string) :=
  take CAP ((w, files) :: lru_without w l).

Definition lru_step (op : cache_op) (l : list (string * list string))
  : list (string * list string) :=
  match op with
  | Get w => (lru_get w l).2
  | Put (Some w) (f :: fl) => lru_put w (f :: fl) l
  | Put _ _ => l
  end.

Definition lru_run (ops : list cache_op) (l : list (string * list string))
  : list (string * list string) :=
  foldl (fun l op => lru_step op l) l ops.

(** ** What a query line prints *)

(** The output of [main] for a line that is not empty, given the words
    that are cached: a diagnostic when the line has no letter or digit;
    "not found" when the index has no list for the normalized word;
    otherwise the provenance line, the cache's when the word is cached,
    and the names of the list. *)
Definition answer (tbl : list (list WordEntry)) (ws : list string) (line : string)
  : string :=
  let w := normalize_word_inplace line in
  if decide (w = EmptyString) then "pls type letters/numbers" +:+ nl
  else
    match files_of tbl w with
    | [] => "not found" +:+ nl
    | f :: fl =>
        (if decide (w ∈ ws) then from_cache else from_hash_table)
        +:+ "found in: " +:+ String.concat " " (f :: fl) +:+ nl
    end.

(** A lookup on the list model of the cache: a cached word moves to the
    front, a word that the index has a list for is put in front, any
    other word changes nothing. *)
Definition lru_lookup (tbl : list (list WordEntry)) (w : string)
  (l : list (string * list string)) : list (string * list string) :=
  if decide (w ∈ l.*1) then (lru_get w l).2
  else
    match files_of tbl w with
    | [] => l
    | f :: fl => lru_put w (f :: fl) l
    end.

(** The output of the loop of [main] on the lines [stdin], for the index
    [tbl] and the cache bindings [l]: a prompt before each line, the
    answer to each line up to the first empty one, and a last prompt. *)
Fixpoint session (tbl : list (list WordEntry)) (l : list (string * list string))
  (stdin : list string) : string :=
  match stdin with
  | [] => "> "
  | line :: rest =>
      let line' := strip_newline line in
      let w := normalize_word_inplace line' in
      if decide (line' = EmptyString) then "> "
      else
        "> " +:+ answer tbl l.*1 line'
        +:+ session tbl (if decide (w = EmptyString) then l else lru_lookup tbl w l) rest
  end.

(** ** The textbook hash *)

(** djb2 as it is usually stated: [h * 33 + c] over the bytes, without
    a bound on [h]. *)
Fixpoint djb2 (s : string) (h : Z) : Z :=
  match s with
  | EmptyString => h
  | String c s' => djb2 s' (h * 33 + uchar c)
  end.

(** ** Words of a text *)

(** A string in lower case, character by character. *)
Fixpoint lowercase (s : string) : string :=
  match s with
  | EmptyString => EmptyString
  | String c s' => String (tolower c) (lowercase s')
  end.

(** All characters are letters or digits. *)
Definition alnum_only (s : string) : Prop :=
  Forall (fun c => isalnum c = true) (list_ascii_of_string s).

(** * Proofs *)

(** ** The hash function and the table *)

Lemma hash_str_range (s : string) : 0 <= hash_str s < HASH_SIZE.
Proof. unfold hash_str. apply Z.mod_pos_bound. reflexivity. Qed.

Lemma chain_find_word (p : list WordEntry) (word : string) (e : WordEntry) :
  chain_find p word = Some e -> we_word e = word /\ e ∈ p.
Proof.
  induction p as [|x p IH]; [done|]. simpl.
  destruct (String.eqb_spec (we_word x) word) as [Heq|Hne].
  - intros [= <-]. split; [done|]. apply list_elem_of_here.
  - intros H. destruct (IH H) as [? ?]. split; [done|]. by apply list_elem_of_further.
Qed.

Lemma find_word_entry_defined (word : string) (tbl : list (list WordEntry)) :
  length tbl = Z.to_nat HASH_SIZE -> is_Some (find_word_entry word tbl).
Proof.
  intros Hl. unfold find_word_entry.
  destruct (lookup_lt_is_Some_2 tbl (Z.to_nat (hash_str word))) as [p Hp].
  { pose proof (hash_str_range word). lia. }
  rewrite Hp. by eexists.
Qed.

Lemma find_word_entry_word (word : string) (tbl : list (list WordEntry)) (e : WordEntry) :
  find_word_entry word tbl = Some (Some e) -> we_word e = word.
Proof.
  unfold find_word_entry. destruct (tbl !! _) as [p|]; [|done]. simpl.
  intros [= H]. by apply chain_find_word in H as [? _].
Qed.

Lemma length_insert_word (w filename : string) (ix ix' : Index) :
  insert_word (Some w) filename ix = Some ix' ->
  length (hash_table ix') = length (hash_table ix).
Proof.
  unfold insert_word. destruct w as [|a w]; [by intros [= <-]|].
  destruct (hash_table ix !! _) as [p|]; [|done]. cbn [mbind option_bind].
  destruct (chain_insert p _ filename (heap ix)) as [[p' h']|].
  - intros [= <-]. cbn. by rewrite length_insert.
  - destruct (malloc (heap ix)) as [[] h1]; cbn [negb]; [|by intros [= <-]].
    destruct (malloc h1) as [[] h2]; cbn [negb]; [|by intros [= <-]].
    destruct (add_file_to_list _ _ _) as [e' h3].
    intros [= <-]. cbn. by rewrite length_insert.
Qed.

Lemma insert_word_defined (word : option string) (filename : string) (ix : Index) :
  length (hash_table ix) = Z.to_nat HASH_SIZE ->
  is_Some (insert_word word filename ix).
Proof.
  intros Hl. destruct word as [[|a w]|]; [by eexists| |by eexists]. unfold insert_word.
  destruct (lookup_lt_is_Some_2 (hash_table ix) (Z.to_nat (hash_str (String a w)))) as [p Hp].
  { pose proof (hash_str_range (String a w)). lia. }
  rewrite Hp. cbn [mbind option_bind].
  destruct (chain_insert p _ filename (heap ix)) as [[p' h']|]; [by eexists|].
  destruct (malloc (heap ix)) as [[] h1]; cbn [negb]; [|by eexists].
  destruct (malloc h1) as [[] h2]; cbn [negb]; [|by eexists].
  destruct (add_file_to_list _ _ _) as [e' h3]. by eexists.
Qed.

(** ** The cache: what the array code does to the occupied slots *)

Lemma store_Some {A} (a : list A) i x :
  (i < length a)%nat -> store a i x = Some (<[i := x]> a).
Proof. intros H. unfold store. by rewrite decide_True. Qed.

(** The shifting loop copies slots [0 .. j-1] to [1 .. j]. *)
Lemma shift_back_spec (j : nat) (slots : list CacheSlot) :
  (j < length slots)%nat ->
  shift_back j slots = Some (take 1 slots ++ take j slots ++ drop (S j) slots).
Proof.
  revert slots. induction j as [|j IH]; intros slots Hlen.
  - simpl shift_back. rewrite take_0. simpl. by rewrite take_drop.
  - simpl shift_back.
    destruct (lookup_lt_is_Some_2 slots j) as [s Hs]; [lia|].
    destruct (lookup_lt_is_Some_2 slots (S j)) as [x Hx]; [lia|].
    rewrite Hs. simpl. rewrite store_Some by done. simpl.
    rewrite IH by (rewrite length_insert; lia).
    f_equal.
    rewrite !take_insert_ge by lia.
    rewrite (take_S_r _ _ _ Hs).
    rewrite drop_insert_ge by lia.
    replace (S j - S j)%nat with 0%nat by lia.
    rewrite (drop_S _ x (S j) Hx). simpl.
    by rewrite <- !app_assoc.
Qed.

(** Shifting and then writing [hit] to slot 0 moves slot [j] to the front. *)
Lemma move_to_front_spec (j : nat) (slots : list CacheSlot) (hit : CacheSlot) :
  (j < length slots)%nat ->
  (slots1 ← shift_back j slots; store slots1 0 hit)
  = Some (hit :: take j slots ++ drop (S j) slots).
Proof.
  intros Hlen. rewrite shift_back_spec by done. simpl.
  destruct slots as [|x slots]; [simpl in Hlen; lia|].
  rewrite store_Some; [done|]. simpl. lia.
Qed.

(** The search loop finds the first slot of [word] among those it visits. *)
Lemma cache_index_from_spec (slots : list CacheSlot) (word : string) (n i : nat) :
  Forall (fun s => is_Some (slot_word s)) (take n (drop i slots)) ->
  (i + n <= length slots)%nat ->
  cache_index_from slots word n i
  = Some (match list_find (holds word) (take n (drop i slots)) with
          | Some (k, _) => Z.of_nat (i + k)
          | None => -1
          end).
Proof.
  revert i. induction n as [|n IH]; intros i Hw Hlen; [done|].
  destruct (lookup_lt_is_Some_2 slots i) as [s Hs]; [lia|].
  rewrite (drop_S _ _ _ Hs) in Hw |- *. simpl in Hw |- *.
  apply Forall_cons in Hw as [[w Hsw] Hw].
  rewrite Hs. simpl. rewrite Hsw. simpl.
  destruct (String.eqb_spec w word) as [->|Hne].
  - rewrite decide_True by done. do 2 f_equal. lia.
  - rewrite decide_False by (unfold holds; congruence).
    rewrite IH by (done || lia).
    destruct (list_find _ _) as [[k x]|]; simpl; [|done].
    do 2 f_equal. lia.
Qed.

Lemma length_live (c : Cache) :
  cache_wf c -> length (live c) = Z.to_nat (cache_count c).
Proof.
  intros [Hl Hc _]. unfold live. rewrite length_take, Hl. lia.
Qed.

Lemma cache_index_of_spec (word : string) (c : Cache) :
  cache_wf c -> cache_index_of word c = Some (slot_index word (live c)).
Proof.
  intros [Hl Hc Hw]. unfold cache_index_of, slot_index, live in *.
  rewrite cache_index_from_spec; rewrite ?drop_0; [|done|lia].
  by destruct (list_find _ _) as [[k x]|].
Qed.

Lemma take_delete {A} (l : list A) (k n : nat) :
  (k <= n)%nat -> take n (delete k l) = delete k (take (S n) l).
Proof.
  revert k n. induction l as [|x l IH]; intros [|k] [|n] H; simpl; try done; try lia.
  f_equal. apply IH. lia.
Qed.

Lemma find_live (word : string) (c : Cache) (k : nat) (s : CacheSlot) :
  list_find (holds word) (live c) = Some (k, s) ->
  (k < Z.to_nat (cache_count c))%nat /\ cache_slots c !! k = Some s /\ slot_word s = Some word.
Proof.
  intros H. apply list_find_Some in H as (Hk & Hs & _).
  unfold live in Hk. apply lookup_take_Some in Hk as [Hk Hlt]. done.
Qed.

(** *** One call on a well-formed cache *)

Lemma cache_get_miss (word : string) (c : Cache) :
  cache_wf c -> list_find (holds word) (live c) = None ->
  cache_get word c = Some ([], c).
Proof.
  intros Hwf Hf. unfold cache_get. rewrite cache_index_of_spec by done.
  unfold slot_index. by rewrite Hf.
Qed.

Lemma cache_get_hit (word : string) (c : Cache) (k : nat) (s : CacheSlot) :
  cache_wf c -> list_find (holds word) (live c) = Some (k, s) ->
  cache_get word c
  = Some (slot_files s, mkCache (s :: delete k (cache_slots c)) (cache_count c)).
Proof.
  intros Hwf Hf. destruct (find_live _ _ _ _ Hf) as (Hk & Hs & _).
  unfold cache_get. rewrite cache_index_of_spec by done.
  unfold slot_index. rewrite Hf. simpl.
  destruct (Z.ltb_spec (Z.of_nat k) 0) as [?|_]; [lia|].
  rewrite Nat2Z.id, Hs. simpl.
  pose proof (move_to_front_spec k (cache_slots c) s) as Hm.
  destruct (shift_back k (cache_slots c)) as [slots1|]; simpl in Hm |- *.
  - rewrite Hm by (destruct Hwf; unfold CACHE_CAP in *; lia). simpl.
    by rewrite delete_take_drop.
  - apply lookup_lt_Some in Hs. by specialize (Hm Hs).
Qed.

Lemma cache_put_hit (w f : string) (fl : list string) (c : Cache) (k : nat) (s : CacheSlot) :
  cache_wf c -> list_find (holds w) (live c) = Some (k, s) ->
  cache_put (Some w) (f :: fl) c
  = Some (mkCache (mkCacheSlot (Some w) (f :: fl) :: delete k (cache_slots c)) (cache_count c)).
Proof.
  intros Hwf Hf. destruct (find_live _ _ _ _ Hf) as (Hk & Hs & Hw).
  pose proof (lookup_lt_Some _ _ _ Hs) as Hlt.
  unfold cache_put. rewrite cache_index_of_spec by done.
  unfold slot_index. rewrite Hf. simpl.
  destruct (Z.leb_spec 0 (Z.of_nat k)) as [_|?]; [|lia].
  rewrite Nat2Z.id, Hs. simpl. rewrite store_Some by done. simpl.
  rewrite list_lookup_insert_eq by done. simpl. rewrite Hw.
  pose proof (move_to_front_spec k (<[k:=mkCacheSlot (Some w) (f :: fl)]> (cache_slots c))
                (mkCacheSlot (Some w) (f :: fl))) as Hm.
  rewrite length_insert in Hm. specialize (Hm Hlt).
  destruct (shift_back k _) as [slots2|]; simpl in Hm |- *; [|done].
  rewrite Hm. simpl. rewrite take_insert_ge, drop_insert_lt by lia.
  by rewrite delete_take_drop.
Qed.

Lemma cache_put_miss (w f : string) (fl : list string) (c : Cache) :
  cache_wf c -> list_find (holds w) (live c) = None ->
  cache_put (Some w) (f :: fl) c
  = Some (mkCache (mkCacheSlot (Some w) (f :: fl)
                     :: delete (Z.to_nat (put_limit c)) (cache_slots c))
                  (if cache_count c <? CACHE_CAP then cache_count c + 1 else cache_count c)).
Proof.
  intros Hwf Hf. unfold cache_put. rewrite cache_index_of_spec by done.
  unfold slot_index. rewrite Hf. simpl. fold (put_limit c).
  assert (Z.to_nat (put_limit c) < length (cache_slots c))%nat as Hlt.
  { destruct Hwf as [Hl Hc _]. rewrite Hl. unfold put_limit, CACHE_CAP in *.
    destruct (Z.ltb_spec (cache_count c) 5); lia. }
  rewrite shift_back_spec by done. simpl.
  destruct (cache_slots c) as [|x slots] eqn:E; [simpl in Hlt; lia|].
  simpl. by rewrite delete_take_drop.
Qed.

Lemma live_move (slots : list CacheSlot) (count : Z) (k : nat) (s : CacheSlot) :
  (k < Z.to_nat count)%nat ->
  live (mkCache (s :: delete k slots) count) = s :: delete k (live (mkCache slots count)).
Proof.
  intros Hk. unfold live. simpl.
  destruct (Z.to_nat count) as [|n] eqn:E; [lia|].
  simpl. f_equal. apply take_delete. lia.
Qed.

Lemma wf_move (c : Cache) (k : nat) (s : CacheSlot) :
  cache_wf c -> (k < Z.to_nat (cache_count c))%nat -> is_Some (slot_word s) ->
  cache_wf (mkCache (s :: delete k (cache_slots c)) (cache_count c)).
Proof.
  intros [Hl Hc Hw] Hk Hs. split.
  - simpl. rewrite length_delete; [lia|]. apply lookup_lt_is_Some_2. lia.
  - done.
  - rewrite live_move by done. apply Forall_cons. split; [done|].
    by apply Forall_delete.
Qed.

(** What [cache_get] does, on the occupied slots. *)
Lemma cache_get_live (word : string) (c : Cache) :
  cache_wf c ->
  exists r c',
    cache_get word c = Some (r, c') /\ cache_wf c' /\ cache_count c' = cache_count c /\
    match list_find (holds word) (live c) with
    | Some (k, s) => r = slot_files s /\ live c' = s :: delete k (live c)
    | None => r = [] /\ c' = c
    end.
Proof.
  intros Hwf. destruct (list_find (holds word) (live c)) as [[k s]|] eqn:Hf.
  - destruct (find_live _ _ _ _ Hf) as (Hk & Hs & Hw).
    eexists _, _. split; [by apply cache_get_hit|].
    split; [apply wf_move; by eauto|]. split; [done|]. split; [done|].
    destruct c as [slots count]. by apply live_move.
  - eexists _, _. split; [by apply cache_get_miss|]. done.
Qed.

Lemma take_delete_same {A} (l : list A) (n : nat) : take n (delete n l) = take n l.
Proof.
  revert n. induction l as [|x l IH]; intros [|n]; simpl; try done.
  by rewrite IH.
Qed.

Lemma live_put_miss (new : CacheSlot) (c : Cache) :
  cache_wf c ->
  live (mkCache (new :: delete (Z.to_nat (put_limit c)) (cache_slots c))
          (if cache_count c <? CACHE_CAP then cache_count c + 1 else cache_count c))
  = take CAP (new :: live c).
Proof.
  intros [Hl Hc _]. unfold live, put_limit, CAP, CACHE_CAP in *. cbn [cache_slots cache_count].
  destruct (Z.ltb_spec (cache_count c) 5) as [Hlt|Hge].
  - replace (Z.to_nat (cache_count c + 1)) with (S (Z.to_nat (cache_count c))) by lia.
    rewrite firstn_cons, take_delete_same. symmetry. apply take_ge.
    cbn [length]. rewrite length_take. lia.
  - replace (cache_count c) with 5 by lia.
    change (Z.to_nat (5 - 1)) with 4%nat. change (Z.to_nat 5) with 5%nat in *.
    rewrite !firstn_cons, take_delete_same. f_equal.
    rewrite take_take. f_equal.
Qed.

(** What a [cache_put] that passes its guard does, on the occupied slots. *)
Lemma cache_put_live (w f : string) (fl : list string) (c : Cache) :
  cache_wf c ->
  exists c',
    cache_put (Some w) (f :: fl) c = Some c' /\ cache_wf c' /\
    match list_find (holds w) (live c) with
    | Some (k, s) =>
        live c' = mkCacheSlot (Some w) (f :: fl) :: delete k (live c)
        /\ cache_count c' = cache_count c
    | None =>
        live c' = take CAP (mkCacheSlot (Some w) (f :: fl) :: live c)
        /\ cache_count c' = Z.min (cache_count c + 1) CACHE_CAP
    end.
Proof.
  intros Hwf. destruct (list_find (holds w) (live c)) as [[k s]|] eqn:Hf.
  - destruct (find_live _ _ _ _ Hf) as (Hk & Hs & Hw).
    eexists. split; [by eapply cache_put_hit|].
    split; [apply wf_move; by eauto|].
    split; [|done]. destruct c as [slots count]. by apply live_move.
  - eexists. split; [by apply cache_put_miss|].
    pose proof (live_put_miss (mkCacheSlot (Some w) (f :: fl)) c Hwf) as Hlive.
    split; [|split; [done|]].
    + destruct Hwf as [Hl Hc Hw]. split.
      * cbn [cache_slots length]. unfold put_limit, CACHE_CAP in *.
        rewrite length_delete; [lia|]. apply lookup_lt_is_Some_2.
        destruct (Z.ltb_spec (cache_count c) 5); lia.
      * cbn [cache_count]. unfold CACHE_CAP in *.
        destruct (Z.ltb_spec (cache_count c) 5); lia.
      * rewrite Hlive. apply Forall_take, Forall_cons. split; [by eexists|done].
    + cbn [cache_count]. destruct Hwf as [_ Hc _]. unfold CACHE_CAP in *.
      destruct (Z.ltb_spec (cache_count c) 5); lia.
Qed.

Lemma find_None_words (word : string) (l : list CacheSlot) :
  list_find (holds word) l = None <-> Some word ∉ slot_word <$> l.
Proof.
  rewrite list_find_None, Forall_forall. split.
  - intros H Hin. apply list_elem_of_fmap in Hin as (s & Hs & Hin).
    by apply (H s Hin).
  - intros H s Hin Hs. apply H. apply list_elem_of_fmap. by exists s.
Qed.

Lemma elem_of_cached_words (w : string) (c : Cache) :
  w ∈ cached_words c <-> Some w ∈ slot_word <$> live c.
Proof.
  unfold cached_words. rewrite list_elem_of_omap, list_elem_of_fmap.
  split; intros (s & H1 & H2); exists s; done.
Qed.

(** *** The invariant *)

Lemma cache_inv_init : cache_inv cache_init.
Proof.
  split; [split|..]; try done; vm_compute; try constructor; congruence.
Qed.

Lemma cache_get_inv (word : string) (c : Cache) :
  cache_inv c ->
  exists r c',
    cache_get word c = Some (r, c') /\ cache_inv c' /\ live c' ≡ₚ live c /\
    (r <> [] <-> word ∈ cached_words c) /\
    (word ∉ cached_words c -> c' = c) /\
    (word ∈ cached_words c -> exists s, head (live c') = Some s /\ holds word s /\ r = slot_files s).
Proof.
  intros [Hwf Hnd Hfl].
  destruct (cache_get_live word c Hwf) as (r & c' & Hget & Hwf' & Hcnt & Hlive).
  exists r, c'. split; [done|].
  destruct (list_find (holds word) (live c)) as [[k s]|] eqn:Hf.
  - destruct Hlive as [-> Hlive].
    apply list_find_Some in Hf as (Hk & Hs & _).
    assert (live c' ≡ₚ live c) as Hp.
    { rewrite Hlive. symmetry. by apply delete_Permutation. }
    assert (word ∈ cached_words c) as Hin.
    { apply elem_of_cached_words, list_elem_of_fmap. exists s. split; [done|].
      by eapply list_elem_of_lookup_2. }
    split; [|split; [done|]].
    { split; [done| by rewrite Hp | by rewrite Hp]. }
    split; [|split; [done|]].
    + split; [done|]. intros _.
      rewrite Forall_forall in Hfl. apply Hfl. by eapply list_elem_of_lookup_2.
    + intros _. exists s. rewrite Hlive. done.
  - destruct Hlive as [-> ->].
    apply find_None_words in Hf. rewrite <- elem_of_cached_words in Hf.
    split; [done|]. split; [done|]. split; [done|]. done.
Qed.

Lemma cache_put_noop (word : option string) (files : list string) (c : Cache) :
  word = None \/ files = [] -> cache_put word files c = Some c.
Proof. intros [-> | ->]; [done|]. by destruct word. Qed.

Lemma cache_put_inv (w f : string) (fl : list string) (c : Cache) :
  cache_inv c ->
  exists c',
    cache_put (Some w) (f :: fl) c = Some c' /\ cache_inv c' /\
    head (live c') = Some (mkCacheSlot (Some w) (f :: fl)) /\
    (w ∈ cached_words c ->
       cached_words c' ≡ₚ cached_words c /\ cache_count c' = cache_count c) /\
    (w ∉ cached_words c ->
       live c' = take CAP (mkCacheSlot (Some w) (f :: fl) :: live c)
       /\ cache_count c' = Z.min (cache_count c + 1) CACHE_CAP).
Proof.
  intros [Hwf Hnd Hfl].
  destruct (cache_put_live w f fl c Hwf) as (c' & Hput & Hwf' & Hlive).
  exists c'. split; [done|].
  destruct (list_find (holds w) (live c)) as [[k s]|] eqn:Hf.
  - destruct Hlive as [Hlive Hcnt].
    apply list_find_Some in Hf as (Hk & Hs & _).
    assert (w ∈ cached_words c) as Hin.
    { apply elem_of_cached_words, list_elem_of_fmap. exists s. split; [done|].
      by eapply list_elem_of_lookup_2. }
    assert (slot_word <$> live c' ≡ₚ slot_word <$> live c) as Hp.
    { rewrite Hlive, fmap_cons. cbn [slot_word]. rewrite <- Hs, list_fmap_delete.
      symmetry. apply delete_Permutation. by rewrite list_lookup_fmap, Hk. }
    split; [|split; [by rewrite Hlive|split; [|done]]].
    + split; [done| by rewrite Hp |].
      rewrite Hlive. apply Forall_cons. split; [done|]. by apply Forall_delete.
    + intros _. split; [|done]. unfold cached_words.
      rewrite Hlive. cbn [omap list_omap slot_word].
      rewrite (delete_Permutation _ _ _ Hk) at 2.
      cbn [omap list_omap]. by rewrite Hs.
  - destruct Hlive as [Hlive Hcnt].
    apply find_None_words in Hf.
    split; [|split; [by rewrite Hlive|split; [|done]]].
    + split; [done|..]; rewrite Hlive.
      * rewrite fmap_take. eapply sublist_NoDup; [|apply sublist_take].
        rewrite fmap_cons. by apply NoDup_cons.
      * apply Forall_take, Forall_cons. done.
    + intros Hin. by apply elem_of_cached_words in Hin.
Qed.

Lemma cache_step_inv (op : cache_op) (c : Cache) :
  cache_inv c -> exists c', cache_step op c = Some c' /\ cache_inv c'.
Proof.
  intros Hinv. destruct op as [word|[w|] [|f fl]]; cbn [cache_step]; try by eexists.
  - destruct (cache_get_inv word c Hinv) as (r & c' & -> & Hinv' & _).
    by exists c'.
  - destruct (cache_put_inv w f fl c Hinv) as (c' & -> & Hinv' & _).
    by exists c'.
Qed.

Lemma cache_run_inv (ops : list cache_op) (c : Cache) :
  cache_inv c -> exists c', cache_run ops c = Some c' /\ cache_inv c'.
Proof.
  revert c. induction ops as [|op ops IH]; intros c Hinv; simpl; [by eexists|].
  destruct (cache_step_inv op c Hinv) as (c1 & -> & Hinv1). simpl. by apply IH.
Qed.
Lemma cached_words_fmap (c : Cache) :
  cache_wf c -> slot_word <$> live c = Some <$> cached_words c.
Proof.
  intros [_ _ Hw]. unfold cached_words.
  induction Hw as [|s l [w Hs] _ IH]; [done|].
  cbn. rewrite Hs. cbn. by f_equal.
Qed.

Lemma cached_words_NoDup (c : Cache) : cache_inv c -> NoDup (cached_words c).
Proof.
  intros [Hwf Hnd _]. rewrite cached_words_fmap in Hnd by done.
  by apply NoDup_fmap in Hnd; [|apply _].
Qed.

Lemma cached_words_length (c : Cache) :
  cache_wf c -> length (cached_words c) = Z.to_nat (cache_count c).
Proof.
  intros Hwf. rewrite <- (length_live c Hwf).
  rewrite <- (length_fmap Some), <- cached_words_fmap by done.
  by rewrite length_fmap.
Qed.

Lemma cache_run_app (ops1 ops2 : list cache_op) (c : Cache) :
  cache_run (ops1 ++ ops2) c = c' ← cache_run ops1 c; cache_run ops2 c'.
Proof.
  revert c. induction ops1 as [|op ops1 IH]; intros c; simpl; [done|].
  destruct (cache_step op c) as [c1|]; simpl; [apply IH|done].
Qed.

Lemma reachable_inv (ops : list cache_op) (c : Cache) :
  cache_run ops cache_init = Some c -> cache_inv c.
Proof.
  intros H. destruct (cache_run_inv ops cache_init cache_inv_init) as (c' & H' & Hinv).
  congruence.
Qed.
(** ** Claims about the cache *)

(** C10: [cache_put] with a null word or a null list changes nothing;
    hence in every state reached through [cache_get] and [cache_put]
    from the initial one each occupied slot holds a word and a non-null
    list, and [cache_get] returns a non-null list exactly for the words
    that sit in an occupied slot. *)
Theorem cache_put_guard_and_hits :
  (forall files c, cache_put None files c = Some c) /\
  (forall word c, cache_put word [] c = Some c) /\
  (forall ops, exists c,
      cache_run ops cache_init = Some c /\
      Forall (fun s => is_Some (slot_word s) /\ slot_files s <> []) (live c) /\
      forall word, exists r c',
        cache_get word c = Some (r, c') /\ (r <> [] <-> word ∈ cached_words c)).
Proof.
  split; [|split].
  - intros files c. by apply cache_put_noop; left.
  - intros word c. by apply cache_put_noop; right.
  - intros ops.
    destruct (cache_run_inv ops cache_init cache_inv_init) as (c & Hrun & Hinv).
    exists c. split; [done|]. split.
    + destruct Hinv as [[_ _ Hw] _ Hf]. rewrite Forall_forall in *. naive_solver.
    + intros word.
      destruct (cache_get_inv word c Hinv) as (r & c' & Hget & _ & _ & Hr & _).
      by exists r, c'.
Qed.

(** C3: in a well-formed cache two calls of [cache_get] in a row on the
    same word return the same list; when the word is cached it is in the
    front slot after the first call and the second call leaves the cache
    as the first left it; when it is not, the first call leaves the
    cache as it was. *)
Theorem cache_get_twice (c : Cache) (w : string) :
  cache_wf c ->
  exists r c1 c2,
    cache_get w c = Some (r, c1) /\ cache_get w c1 = Some (r, c2) /\
    (w ∈ cached_words c ->
       (exists s, cache_slots c1 !! 0%nat = Some s /\ slot_word s = Some w /\ slot_files s = r)
       /\ c2 = c1) /\
    (w ∉ cached_words c -> r = [] /\ c1 = c /\ c2 = c).
Proof.
  intros Hwf. destruct (list_find (holds w) (live c)) as [[k s]|] eqn:Hf.
  - destruct (find_live _ _ _ _ Hf) as (Hk & Hs & Hw).
    pose proof (cache_get_hit w c k s Hwf Hf) as Hget.
    set (c1 := mkCache (s :: delete k (cache_slots c)) (cache_count c)) in *.
    assert (cache_wf c1) as Hwf1 by (apply wf_move; eauto).
    assert (list_find (holds w) (live c1) = Some (0%nat, s)) as Hf1.
    { unfold c1. rewrite live_move by done. cbn. by rewrite decide_True. }
    pose proof (cache_get_hit w c1 0 s Hwf1 Hf1) as Hget1.
    exists (slot_files s), c1, c1. split; [done|]. split; [done|].
    split; [intros _; split; [by exists s|done]|].
    intros Hin. exfalso. apply Hin.
    apply elem_of_cached_words, list_elem_of_fmap. exists s. split; [done|].
    apply list_find_Some in Hf as (Hl & _). by eapply list_elem_of_lookup_2.
  - pose proof (cache_get_miss w c Hwf Hf) as Hget.
    exists [], c, c. split; [done|]. split; [done|].
    split; [|done]. intros Hin. apply find_None_words in Hf.
    by apply elem_of_cached_words in Hin.
Qed.

Lemma cache_get_twice_witness :
  exists r c1 c2,
    cache_get "a" two_slots = Some (r, c1) /\ cache_get "a" c1 = Some (r, c2) /\
    ("a" ∈ cached_words two_slots ->
       (exists s, cache_slots c1 !! 0%nat = Some s /\ slot_word s = Some "a" /\ slot_files s = r)
       /\ c2 = c1) /\
    ("a" ∉ cached_words two_slots -> r = [] /\ c1 = two_slots /\ c2 = two_slots).
Proof.
  apply (cache_get_twice two_slots "a").
  split; [reflexivity | vm_compute; split; discriminate |].
  vm_compute. repeat constructor; eexists; reflexivity.
Defined.

(** C2, as stated, fails: from the full cache that five puts build, a
    put of the uncached word "f" with a null list returns at the guard,
    and the least recently used slot, that of "a", stays. *)
Lemma put_null_list_evicts_nothing :
  cache_run five_puts cache_init = Some full_cache /\
  cache_count full_cache = CACHE_CAP /\
  ("f" ∉ cached_words full_cache) /\
  cache_put (Some "f") [] full_cache = Some full_cache /\
  cache_slots full_cache !! 4%nat = Some (mkCacheSlot (Some "a") ["1"]).
Proof.
  split; [reflexivity|]. split; [reflexivity|]. split; [|split; reflexivity].
  vm_compute. intros H. repeat (apply elem_of_cons in H as [H|H]; [discriminate|]).
  by apply elem_of_nil in H.
Qed.

(** C2, amended: every state reached through [cache_get] and [cache_put]
    has at most [CACHE_CAP] occupied slots, each with a word, and no word
    twice; and from such a state with [CACHE_CAP] occupied slots, a put of
    a word that is not cached, with a non-null list, puts the new slot in
    front, moves the first four slots back by one and drops the slot at
    the back, whose word is not cached any more. *)
Theorem cache_capacity_and_eviction :
  (forall ops, exists c,
      cache_run ops cache_init = Some c /\
      0 <= cache_count c <= CACHE_CAP /\
      length (live c) = Z.to_nat (cache_count c) /\
      Forall (fun s => is_Some (slot_word s)) (live c) /\
      NoDup (cached_words c)) /\
  (forall ops c w f fl,
      cache_run ops cache_init = Some c ->
      cache_count c = CACHE_CAP ->
      w ∉ cached_words c ->
      exists c',
        cache_put (Some w) (f :: fl) c = Some c' /\
        cache_count c' = CACHE_CAP /\
        cache_slots c' = mkCacheSlot (Some w) (f :: fl) :: take 4 (cache_slots c) /\
        forall back v,
          cache_slots c !! 4%nat = Some back -> slot_word back = Some v ->
          v ∉ cached_words c').
Proof.
  split.
  - intros ops.
    destruct (cache_run_inv ops cache_init cache_inv_init) as (c & Hrun & Hinv).
    exists c. split; [done|]. pose proof Hinv as [Hwf _ _].
    split; [apply Hwf|]. split; [by apply length_live|].
    split; [apply Hwf|]. by apply cached_words_NoDup.
  - intros ops c w f fl Hrun Hfull Hw.
    pose proof (reachable_inv _ _ Hrun) as Hinv. pose proof Hinv as [Hwf Hnd _].
    assert (list_find (holds w) (live c) = None) as Hf.
    { apply find_None_words. by rewrite <- elem_of_cached_words. }
    pose proof (cache_put_miss w f fl c Hwf Hf) as Hput.
    pose proof (live_put_miss (mkCacheSlot (Some w) (f :: fl)) c Hwf) as Hlive.
    destruct Hwf as [Hl _ _].
    unfold put_limit, live, CAP in *. rewrite Hfull in *.
    change (Z.to_nat CACHE_CAP) with 5%nat in *.
    change (Z.to_nat (CACHE_CAP - 1)) with 4%nat in *.
    change (CACHE_CAP <? CACHE_CAP) with false in *. cbv iota in *.
    destruct (cache_slots c) as [|s0 [|s1 [|s2 [|s3 [|s4 [|s5 l]]]]]] eqn:E;
      simpl in Hl; try lia.
    eexists. split; [exact Hput|]. split; [done|]. split; [done|].
    intros back v [= <-] Hv Hin.
    unfold cached_words, live in Hin. cbn [cache_slots cache_count] in Hin.
    change (Z.to_nat CACHE_CAP) with 5%nat in Hin.
    change (Z.to_nat (CACHE_CAP - 1)) with 4%nat in Hin.
    cbn [delete list_delete take] in Hin.
    apply list_elem_of_omap in Hin as (s & Hs & Hsv).
    assert (slot_word s = slot_word s4) as Heq by congruence.
    cbn [take fmap list_fmap] in Hnd.
    apply elem_of_cons in Hs as [->|Hs].
    { apply Hw. apply list_elem_of_omap. exists s4. split; [|by rewrite <- Heq].
      unfold live. rewrite E, Hfull. change (Z.to_nat CACHE_CAP) with 5%nat.
      cbn [take]. by apply (list_elem_of_lookup_2 _ 4%nat). }
    apply NoDup_app with (l := [slot_word s0; slot_word s1; slot_word s2; slot_word s3])
      (k := [slot_word s4]) in Hnd as (_ & Hnd & _).
    apply (Hnd (slot_word s)); [|rewrite Heq; apply list_elem_of_here].
    repeat (apply elem_of_cons in Hs as [->|Hs]; [rewrite !elem_of_cons; tauto|]).
    by apply elem_of_nil in Hs.
Qed.

Lemma cache_capacity_and_eviction_witness :
  exists c',
    cache_put (Some "f") ["6"] full_cache = Some c' /\
    cache_count c' = CACHE_CAP /\
    cache_slots c' = mkCacheSlot (Some "f") ["6"] :: take 4 (cache_slots full_cache) /\
    forall back v,
      cache_slots full_cache !! 4%nat = Some back -> slot_word back = Some v ->
      v ∉ cached_words c'.
Proof.
  apply (proj2 cache_capacity_and_eviction five_puts full_cache "f" "6" []).
  - reflexivity.
  - reflexivity.
  - apply (bool_decide_unpack _). vm_compute. exact I.
Defined.
(** ** Insertions into the table *)

Lemma filelist_contains_spec (head : list string) (filename : string) :
  filelist_contains head filename = true <-> filename ∈ head.
Proof.
  induction head as [|name next IH]; simpl.
  - split; [done|]. by intros H%elem_of_nil.
  - rewrite elem_of_cons. destruct (String.eqb_spec name filename) as [->|Hne].
    + split; [by left|done].
    + rewrite IH. split; [by right|]. intros [?|?]; congruence.
Qed.

Lemma malloc_never_fails (h : Heap) :
  never_fails h -> malloc h = (true, tail h) /\ never_fails (tail h).
Proof. intros Hh. destruct Hh as [|b h -> Hh]; split; (done || constructor). Qed.

(** Settle a call [E : malloc h = (b, h')] on an allocator [Hh] that
    never fails: [b] is [true] and [h'] never fails either. *)
Ltac malloc_ok Hh E :=
  let Hm := fresh "Hm" in
  let Hh' := fresh "Hh" in
  destruct (malloc_never_fails _ Hh) as [Hm Hh'];
  rewrite E in Hm; simplify_eq.

Lemma add_file_to_list_spec (e e' : WordEntry) (filename : string) (h h' : Heap) :
  add_file_to_list e filename h = (e', h') ->
  we_word e' = we_word e /\
  (forall x, x ∈ we_files e -> x ∈ we_files e') /\
  (NoDup (we_files e) -> NoDup (we_files e')) /\
  (never_fails h -> never_fails h' /\ filename ∈ we_files e').
Proof.
  unfold add_file_to_list.
  destruct (filelist_contains (we_files e) filename) eqn:Hc.
  { intros [= <- <-]. by apply filelist_contains_spec in Hc. }
  assert (filename ∉ we_files e) as Hni.
  { intros Hin. apply filelist_contains_spec in Hin. congruence. }
  destruct (malloc h) as [[] h1] eqn:E1; cbn [negb].
  2:{ intros [= <- <-]. repeat (split; [done|]). intros Hh. malloc_ok Hh E1. }
  destruct (malloc h1) as [[] h2] eqn:E2; cbn [negb].
  2:{ intros [= <- <-]. repeat (split; [done|]).
      intros Hh. malloc_ok Hh E1. malloc_ok Hh0 E2. }
  intros [= <- <-]. cbn. split; [done|].
  split; [intros x Hx; by apply list_elem_of_further|].
  split; [intros Hnd; by apply NoDup_cons|].
  intros Hh. malloc_ok Hh E1. malloc_ok Hh0 E2.
  split; [done|]. apply list_elem_of_here.
Qed.

Lemma chain_insert_None (p : list WordEntry) (word filename : string) (h : Heap) :
  chain_insert p word filename h = None -> chain_find p word = None.
Proof.
  induction p as [|e next IH]; [done|]. simpl.
  destruct (String.eqb (we_word e) word).
  - by destruct (add_file_to_list e filename h).
  - destruct (chain_insert next word filename h) as [[next' h']|]; [done|]. auto.
Qed.

Lemma chain_insert_Some (p p' : list WordEntry) (word filename : string) (h h' : Heap) :
  chain_insert p word filename h = Some (p', h') ->
  (exists e e', chain_find p word = Some e /\ chain_find p' word = Some e' /\
                add_file_to_list e filename h = (e', h')) /\
  (forall w, w <> word -> chain_find p' w = chain_find p w) /\
  (Forall (fun e => NoDup (we_files e)) p -> Forall (fun e => NoDup (we_files e)) p').
Proof.
  revert p'. induction p as [|e next IH]; intros p'; [done|]. simpl.
  destruct (String.eqb_spec (we_word e) word) as [Heq|Hne].
  - destruct (add_file_to_list e filename h) as [e1 h1] eqn:Hadd.
    intros [= <- <-].
    destruct (add_file_to_list_spec _ _ _ _ _ Hadd) as (Hw & _ & Hnd & _).
    split; [|split].
    + exists e, e1. split; [done|]. split; [|done]. simpl.
      rewrite Hw. by destruct (String.eqb_spec (we_word e) word).
    + intros w Hne. simpl. rewrite Hw.
      destruct (String.eqb_spec (we_word e) w); congruence.
    + intros Hall. apply Forall_cons in Hall as [He Hall].
      apply Forall_cons. auto.
  - destruct (chain_insert next word filename h) as [[next' h1]|] eqn:Hrec; [|done].
    intros [= <- <-]. destruct (IH next' eq_refl) as (Hfound & Hother & Hnd).
    split; [|split].
    + destruct Hfound as (e0 & e1 & H0 & H1 & Hadd). exists e0, e1.
      split; [done|]. split; [|done]. simpl.
      by destruct (String.eqb_spec (we_word e) word).
    + intros w Hw. simpl. destruct (String.eqb (we_word e) w); [done|]. by apply Hother.
    + intros Hall. apply Forall_cons in Hall as [He Hall].
      apply Forall_cons. auto.
Qed.

Lemma find_insert_same (tbl : list (list WordEntry)) (idx : nat) (p : list WordEntry)
    (w : string) :
  (idx < length tbl)%nat -> Z.to_nat (hash_str w) = idx ->
  find_word_entry w (<[idx := p]> tbl) = Some (chain_find p w).
Proof.
  intros Hlt Hidx. unfold find_word_entry. rewrite Hidx.
  by rewrite list_lookup_insert_eq.
Qed.

Lemma find_insert_other (tbl : list (list WordEntry)) (idx : nat) (p : list WordEntry)
    (w : string) :
  Z.to_nat (hash_str w) <> idx ->
  find_word_entry w (<[idx := p]> tbl) = find_word_entry w tbl.
Proof.
  intros Hidx. unfold find_word_entry. by rewrite list_lookup_insert_ne.
Qed.

Lemma find_word_entry_NoDup (tbl : list (list WordEntry)) (w : string) (e : WordEntry) :
  table_ok tbl -> find_word_entry w tbl = Some (Some e) -> NoDup (we_files e).
Proof.
  intros [_ Hall]. unfold find_word_entry.
  destruct (tbl !! _) as [p|] eqn:Hp; [|done]. cbn. intros [= Hf].
  apply chain_find_word in Hf as [_ Hin].
  rewrite Forall_forall in Hall. apply list_elem_of_lookup_2 in Hp.
  specialize (Hall p Hp). rewrite Forall_forall in Hall. by apply Hall.
Qed.

(** What one effective call of [insert_word] does to the table. *)
Lemma insert_word_spec (w filename : string) (ix ix' : Index) :
  w <> EmptyString -> table_ok (hash_table ix) ->
  insert_word (Some w) filename ix = Some ix' ->
  table_ok (hash_table ix') /\
  (never_fails (heap ix) -> never_fails (heap ix')) /\
  (forall w2 e2,
      find_word_entry w2 (hash_table ix) = Some (Some e2) ->
      exists e2', find_word_entry w2 (hash_table ix') = Some (Some e2') /\
                  forall x, x ∈ we_files e2 -> x ∈ we_files e2') /\
  (never_fails (heap ix) ->
   exists e, find_word_entry w (hash_table ix') = Some (Some e) /\ filename ∈ we_files e).
Proof.
  intros Hw Hok. pose proof Hok as [Hl Hall]. unfold insert_word. destruct w as [|a w0]; [done|].
  set (w := String a w0) in *. set (idx := Z.to_nat (hash_str w)).
  destruct (hash_table ix !! idx) as [p|] eqn:Hp; [|done]. cbn [mbind option_bind].
  pose proof (lookup_lt_Some _ _ _ Hp) as Hlt.
  assert (Forall (fun e => NoDup (we_files e)) p) as Hpok.
  { rewrite Forall_forall in Hall. apply Hall. by eapply list_elem_of_lookup_2. }
  assert (forall w2, Z.to_nat (hash_str w2) = idx ->
            find_word_entry w2 (hash_table ix) = Some (chain_find p w2)) as Hold.
  { intros w2 Hi. unfold find_word_entry. by rewrite Hi, Hp. }
  destruct (chain_insert p w filename (heap ix)) as [[p' h']|] eqn:Hci.
  - intros [= <-]. cbn [hash_table heap].
    destruct (chain_insert_Some _ _ _ _ _ _ Hci) as ((e & e' & He & He' & Hadd) & Hother & Hnd).
    destruct (add_file_to_list_spec _ _ _ _ _ Hadd) as (_ & Hsub & _ & Hheap).
    split; [|split; [|split]].
    + split; [by rewrite length_insert|]. apply Forall_insert; auto.
    + intros Hh. by apply Hheap.
    + intros w2 e2 Hf. destruct (decide (Z.to_nat (hash_str w2) = idx)) as [Hi|Hi].
      * rewrite find_insert_same by done. rewrite (Hold w2 Hi) in Hf.
        injection Hf as Hf. destruct (decide (w2 = w)) as [->|Hne].
        -- exists e'. split; [by rewrite He'|]. assert (e2 = e) as -> by congruence. done.
        -- exists e2. rewrite Hother by done. by rewrite Hf.
      * rewrite find_insert_other by done. by exists e2.
    + intros Hh. exists e'. rewrite find_insert_same by done.
      split; [by rewrite He'|]. by apply Hheap.
  - apply chain_insert_None in Hci.
    assert (forall w2 e2,
              find_word_entry w2 (hash_table ix) = Some (Some e2) ->
              forall e1, we_word e1 = w ->
              exists e2', find_word_entry w2 (<[idx := e1 :: p]> (hash_table ix)) = Some (Some e2')
                          /\ forall x, x ∈ we_files e2 -> x ∈ we_files e2') as Hmono.
    { intros w2 e2 Hf e1 He1. destruct (decide (Z.to_nat (hash_str w2) = idx)) as [Hi|Hi].
      - rewrite find_insert_same by done. rewrite (Hold w2 Hi) in Hf. injection Hf as Hf.
        exists e2. split; [|done]. simpl. rewrite He1.
        destruct (String.eqb_spec w w2) as [<-|_]; [congruence|by rewrite Hf].
      - rewrite find_insert_other by done. by exists e2. }
    destruct (malloc (heap ix)) as [[] h1] eqn:E1; cbn [negb].
    2:{ intros [= <-]. cbn [hash_table heap]. split; [done|].
        split; [intros Hh; malloc_ok Hh E1|].
        split; [intros w2 e2 Hf; by exists e2|]. intros Hh. malloc_ok Hh E1. }
    destruct (malloc h1) as [[] h2] eqn:E2; cbn [negb].
    2:{ intros [= <-]. cbn [hash_table heap]. split; [done|].
        split; [intros Hh; malloc_ok Hh E1; malloc_ok Hh0 E2|].
        split; [intros w2 e2 Hf; by exists e2|].
        intros Hh. malloc_ok Hh E1. malloc_ok Hh0 E2. }
    destruct (add_file_to_list (mkWordEntry w []) filename h2) as [e' h3] eqn:Hadd.
    intros [= <-]. cbn [hash_table heap].
    destruct (add_file_to_list_spec _ _ _ _ _ Hadd) as (Hword & _ & Hnd & Hheap).
    cbn in Hword, Hnd.
    assert (never_fails (heap ix) -> never_fails h2) as Hh2.
    { intros Hh. malloc_ok Hh E1. by malloc_ok Hh0 E2. }
    split; [|split; [|split]].
    + split; [by rewrite length_insert|]. apply Forall_insert; [done|].
      apply Forall_cons. split; [apply Hnd; constructor|done].
    + intros Hh. by apply Hheap, Hh2.
    + intros w2 e2 Hf. by apply Hmono.
    + intros Hh. exists e'. rewrite find_insert_same by done. simpl. rewrite Hword.
      destruct (String.eqb_spec w w) as [_|?]; [|done].
      split; [done|]. by apply Hheap, Hh2.
Qed.

Lemma table_ok_init : table_ok hash_table_init.
Proof.
  split; [apply length_replicate|]. unfold hash_table_init.
  apply Forall_replicate. constructor.
Qed.

Lemma occurrences_not_in (d : string) (l : list string) :
  d ∉ l -> occurrences d l = 0%nat.
Proof.
  unfold occurrences. induction l as [|x l IH]; [done|].
  rewrite not_elem_of_cons. intros [Hne Hni]. rewrite filter_cons.
  rewrite decide_False by congruence. by apply IH.
Qed.

Lemma occurrences_NoDup (d : string) (l : list string) :
  NoDup l -> d ∈ l -> occurrences d l = 1%nat.
Proof.
  induction 1 as [|x l Hx Hnd IH]; [by intros H%elem_of_nil|].
  unfold occurrences in *. rewrite filter_cons. intros [->|Hin]%elem_of_cons.
  - rewrite decide_True by done. cbn [length]. f_equal. by apply occurrences_not_in.
  - rewrite decide_False by (intros ->; done). by apply IH.
Qed.

Lemma insert_all_spec (calls : list (option string * string)) (ix : Index) :
  table_ok (hash_table ix) ->
  exists ix',
    insert_all calls ix = Some ix' /\ table_ok (hash_table ix') /\
    (never_fails (heap ix) -> never_fails (heap ix')) /\
    (forall w e,
        find_word_entry w (hash_table ix) = Some (Some e) ->
        exists e', find_word_entry w (hash_table ix') = Some (Some e') /\
                   forall x, x ∈ we_files e -> x ∈ we_files e') /\
    (never_fails (heap ix) ->
     forall w d, w <> EmptyString -> (Some w, d) ∈ calls ->
       exists e, find_word_entry w (hash_table ix') = Some (Some e) /\ d ∈ we_files e).
Proof.
  revert ix. induction calls as [|[word filename] calls IH]; intros ix Hok.
  - exists ix. split; [done|]. split; [done|]. split; [done|].
    split; [intros w e Hf; by exists e|]. intros _ w d _ H. by apply elem_of_nil in H.
  - cbn [insert_all].
    assert (exists ix1,
               insert_word word filename ix = Some ix1 /\ table_ok (hash_table ix1) /\
               (never_fails (heap ix) -> never_fails (heap ix1)) /\
               (forall w e,
                   find_word_entry w (hash_table ix) = Some (Some e) ->
                   exists e', find_word_entry w (hash_table ix1) = Some (Some e') /\
                              forall x, x ∈ we_files e -> x ∈ we_files e') /\
               (never_fails (heap ix) -> forall w, w <> EmptyString -> word = Some w ->
                  exists e, find_word_entry w (hash_table ix1) = Some (Some e)
                            /\ filename ∈ we_files e)) as (ix1 & Hins & Hok1 & Hh1 & Hmono1 & Hadd1).
    { destruct word as [w|].
      - destruct (decide (w = EmptyString)) as [->|Hne].
        + exists ix. split; [done|]. split; [done|]. split; [done|].
          split; [intros w e Hf; by exists e|]. intros _ w Hw [= <-]. done.
        + destruct (insert_word_defined (Some w) filename ix (proj1 Hok)) as [ix1 Hins].
          destruct (insert_word_spec w filename ix ix1 Hne Hok Hins) as (? & ? & ? & Hadd).
          exists ix1. split; [done|]. split; [done|]. split; [done|]. split; [done|].
          intros Hh w' _ [= <-]. by apply Hadd.
      - exists ix. split; [done|]. split; [done|]. split; [done|].
        split; [intros w e Hf; by exists e|]. intros _ w _ [=]. }
    rewrite Hins. cbn [mbind option_bind].
    destruct (IH ix1 Hok1) as (ix' & Hrun & Hok' & Hh' & Hmono' & Hadd').
    exists ix'. split; [done|]. split; [done|]. split; [by auto|]. split.
    + intros w e Hf. destruct (Hmono1 w e Hf) as (e1 & Hf1 & Hsub1).
      destruct (Hmono' w e1 Hf1) as (e' & Hf' & Hsub'). exists e'. split; [done|]. auto.
    + intros Hh w d Hw Hin. apply elem_of_cons in Hin as [[= <- <-]|Hin].
      * destruct (Hadd1 Hh w Hw eq_refl) as (e1 & Hf1 & Hd).
        destruct (Hmono' w e1 Hf1) as (e' & Hf' & Hsub'). exists e'. split; [done|]. auto.
      * by apply (Hadd' (Hh1 Hh)).
Qed.

(** C1, as stated, fails for the empty word: [insert_word] returns at
    its guard, the table stays empty and [find_word_entry] returns null.
    It also fails when the first allocation of the call fails: the word
    "banana" is not recorded. *)
Lemma empty_word_is_not_found :
  insert_all [(Some EmptyString, "doc1.txt")] (mkIndex hash_table_init [])
    = Some (mkIndex hash_table_init []) /\
  find_word_entry EmptyString hash_table_init = Some None /\
  insert_all [(Some "banana", "doc1.txt")] (mkIndex hash_table_init [false])
    = Some (mkIndex hash_table_init []) /\
  find_word_entry "banana" hash_table_init = Some None.
Proof.
  split; [reflexivity|]. split; [vm_compute; reflexivity|].
  split; vm_compute; reflexivity.
Qed.

(** C1, amended: for a non-empty word [w] and a file name [d], after any
    sequence of calls of [insert_word] on the initial table in which
    [insert_word w d] occurs at least once and no allocation fails,
    [find_word_entry w] returns an entry whose list holds [d] exactly
    once. *)
Theorem insert_then_find
    (calls : list (option string * string)) (w d : string) (h : Heap) :
  w <> EmptyString ->
  (Some w, d) ∈ calls ->
  never_fails h ->
  exists ix e,
    insert_all calls (mkIndex hash_table_init h) = Some ix /\
    find_word_entry w (hash_table ix) = Some (Some e) /\
    occurrences d (we_files e) = 1%nat.
Proof.
  intros Hw Hin Hh.
  destruct (insert_all_spec calls (mkIndex hash_table_init h) table_ok_init)
    as (ix & Hrun & Hok & _ & _ & Hadd).
  destruct (Hadd Hh w d Hw Hin) as (e & Hf & Hd).
  exists ix, e. split; [done|]. split; [done|].
  apply occurrences_NoDup; [|done]. by eapply find_word_entry_NoDup.
Qed.

Lemma insert_then_find_witness :
  exists ix e,
    insert_all [(Some "banana", "doc1.txt"); (Some "cherry", "doc2.txt");
                (Some "banana", "doc2.txt"); (Some "banana", "doc1.txt")]
               (mkIndex hash_table_init [true; true]) = Some ix /\
    find_word_entry "banana" (hash_table ix) = Some (Some e) /\
    occurrences "doc1.txt" (we_files e) = 1%nat.
Proof.
  apply (insert_then_find _ "banana" "doc1.txt" [true; true]).
  - discriminate.
  - apply list_elem_of_here.
  - repeat constructor.
Defined.

(** ** Queries through the cache *)

Lemma cached_words_take (c c' : Cache) (w : string) (s : CacheSlot) :
  cache_wf c -> cache_wf c' -> slot_word s = Some w ->
  live c' = take CAP (s :: live c) ->
  cached_words c' = take CAP (w :: cached_words c).
Proof.
  intros Hwf Hwf' Hs Hlive.
  apply (inj (fmap Some)). rewrite fmap_take, fmap_cons.
  rewrite <- !cached_words_fmap by done. rewrite Hlive, fmap_take, fmap_cons.
  by rewrite Hs.
Qed.

Lemma queried_since_evicted_cons (w : string) (s : step) (steps : list step) :
  queried_since_evicted w (s :: steps) <->
  queried_since_evicted w steps \/
  (st_word s = w /\ Forall (fun s' => w ∉ st_evicted s') steps).
Proof.
  split.
  - intros (pre & s' & post & Heq & Hw & Hpost). destruct pre as [|x pre].
    + injection Heq as -> ->. by right.
    + injection Heq as -> ->. left. by exists pre, s', post.
  - intros [(pre & s' & post & -> & Hw & Hpost)|[Hw Hpost]].
    + by exists (s :: pre), s', post.
    + by exists [], s, steps.
Qed.

Lemma take_app_take {A} (n : nat) (l k : list A) :
  take n (l ++ take n k) = take n (l ++ k).
Proof.
  rewrite !take_app, take_take. do 2 f_equal. lia.
Qed.

Section Queries.
Context (tbl : list (list WordEntry)).
Hypothesis table_size : length tbl = Z.to_nat HASH_SIZE.

(** The three ways a call of [lookup_with_cache] can go: served from the
    cache, served from the index and cached, or not found. *)
Lemma lookup_with_cache_spec (q : string) (c : Cache) :
  cache_inv c ->
  exists r c' out,
    lookup_with_cache q tbl c = Some (r, c', out) /\ cache_inv c' /\
    (((q ∈ cached_words c) /\ out = from_cache /\ r <> [] /\
      cached_words c' ≡ₚ cached_words c /\
      cache_get q c = Some (r, c') /\
      live c' ≡ₚ live c /\
      (exists s, s ∈ live c /\ holds q s /\ r = slot_files s))
     \/ ((q ∉ cached_words c) /\ out = from_hash_table /\ r <> [] /\
         cached_words c' = take CAP (q :: cached_words c) /\
         find_word_entry q tbl = Some (Some (mkWordEntry q r)) /\
         live c' = take CAP (mkCacheSlot (Some q) r :: live c))
     \/ ((q ∉ cached_words c) /\ out = EmptyString /\ r = [] /\ c' = c /\
         ~ indexed tbl q)).
Proof.
  intros Hinv.
  destruct (cache_get_inv q c Hinv) as (r1 & c1 & Hget & Hinv1 & Hperm & Hr & Hmiss & Hhit).
  unfold lookup_with_cache. rewrite Hget. cbn [mbind option_bind].
  destruct r1 as [|f1 fl1].
  - assert (q ∉ cached_words c) as Hq by (intros Hin; by apply Hr in Hin).
    rewrite (Hmiss Hq) in *. clear Hmiss Hhit Hr.
    destruct (find_word_entry_defined q tbl table_size) as [oe Hfind]. rewrite Hfind.
    cbn [mbind option_bind].
    destruct oe as [[w [|f fl]]|].
    + exists [], c, EmptyString. split; [done|]. split; [done|].
      right; right. repeat split; try done.
      intros (e & He & Hne). rewrite Hfind in He. by injection He as <-.
    + pose proof (find_word_entry_word _ _ _ Hfind) as Hw. simpl in Hw. subst w.
      destruct (cache_put_inv q f fl c Hinv) as (c2 & Hput & Hinv2 & Hhead & _ & Hnew).
      destruct (Hnew Hq) as [Hlive Hcnt].
      rewrite Hput. cbn [mbind option_bind].
      exists (f :: fl), c2, from_hash_table. split; [done|]. split; [done|].
      right; left. repeat split; try done.
      eapply cached_words_take; [apply Hinv|apply Hinv2| |exact Hlive]. done.
    + exists [], c, EmptyString. split; [done|]. split; [done|].
      right; right. repeat split; try done.
      intros (e & He & Hne). by rewrite Hfind in He.
  - assert (q ∈ cached_words c) as Hq by (by apply Hr).
    destruct (Hhit Hq) as (s & Hhead & Hs & Hrs).
    exists (f1 :: fl1), c1, from_cache. split; [done|]. split; [done|].
    left. repeat split; try done.
    + unfold cached_words. by rewrite Hperm.
    + exists s. split; [|done]. rewrite <- Hperm.
      destruct (live c1); [done|]. injection Hhead as ->. apply list_elem_of_here.
Qed.

(** One step: an indexed word is cached after its own lookup, and only
    the word looked up can enter the cache. *)
Lemma lookup_step_cached (q : string) (c c' : Cache) (r : list string) (out : string) :
  cache_inv c ->
  lookup_with_cache q tbl c = Some (r, c', out) ->
  (indexed tbl q -> q ∈ cached_words c') /\
  (forall w, w ∈ cached_words c' -> w ∈ cached_words c \/ w = q).
Proof.
  intros Hinv Hlook.
  destruct (lookup_with_cache_spec q c Hinv) as (r0 & c0 & out0 & Hlook0 & _ & Hcase).
  rewrite Hlook in Hlook0. injection Hlook0 as <- <- <-.
  destruct Hcase as [(Hq & _ & _ & Hperm & _)|[(Hq & _ & _ & Htake & _)|(Hq & _ & _ & -> & Hni)]].
  - split; [intros _; by rewrite Hperm|]. intros w Hw. left. by rewrite <- Hperm.
  - rewrite Htake. split; [intros _; apply list_elem_of_here|].
    intros w Hw. apply (subseteq_take CAP) in Hw.
    apply elem_of_cons in Hw as [->|Hw]; [by right|by left].
  - split; [done|]. intros w Hw. by left.
Qed.

(** Along a sequence of lookups: an indexed word is cached at the end
    exactly when it was looked up and not evicted since, or was cached
    at the start and never evicted. *)
Lemma lookups_cached (qs : list string) (c : Cache) :
  cache_inv c ->
  exists steps c',
    lookups tbl qs c = Some (steps, c') /\ cache_inv c' /\ st_word <$> steps = qs /\
    forall w, indexed tbl w ->
      (w ∈ cached_words c' <->
       queried_since_evicted w steps \/
       (w ∈ cached_words c /\ Forall (fun s => w ∉ st_evicted s) steps)).
Proof.
  revert c. induction qs as [|q qs IH]; intros c Hinv.
  - exists [], c. split; [done|]. split; [done|]. split; [done|].
    intros w _. split; [by right|]. intros [(pre & s & post & Heq & _)|[? _]]; [|done].
    by destruct pre.
  - destruct (lookup_with_cache_spec q c Hinv) as (r & c1 & out & Hlook & Hinv1 & _).
    destruct (lookup_step_cached q c c1 r out Hinv Hlook) as [Hown Honly].
    destruct (IH c1 Hinv1) as (steps & c' & Hrun & Hinv' & Hws & Hiff).
    cbn [lookups]. rewrite Hlook. cbn [mbind option_bind]. rewrite Hrun. cbn [mbind option_bind].
    eexists _, c'. split; [done|]. split; [done|]. split; [cbn; by f_equal|].
    intros w Hw. rewrite (Hiff w Hw), queried_since_evicted_cons, Forall_cons.
    cbn [st_word st_evicted]. rewrite list_elem_of_difference.
    split.
    + intros [Hq|[Hc1 Hall]]; [by left; left|].
      destruct (Honly w Hc1) as [Hc| ->]; [|by left; right].
      right. split; [done|]. split; [|done]. tauto.
    + intros [[Hq|[-> Hall]]|(Hc & Hne & Hall)]; [by left|by right; eauto|].
      right. split; [|done].
      destruct (decide (w ∈ cached_words c1)) as [|Hn]; [done|]. exfalso. by apply Hne.
Qed.

(** A lookup keeps the cache coherent with the index, and what it
    returns is the list of the index. *)
Lemma lookup_coherent (q : string) (c c' : Cache) (r : list string) (out : string) :
  cache_inv c -> coherent tbl c ->
  lookup_with_cache q tbl c = Some (r, c', out) ->
  coherent tbl c' /\
  (r <> [] -> find_word_entry q tbl = Some (Some (mkWordEntry q r))).
Proof.
  intros Hinv Hco Hlook.
  destruct (lookup_with_cache_spec q c Hinv) as (r0 & c0 & out0 & Hlook0 & _ & Hcase).
  rewrite Hlook in Hlook0. injection Hlook0 as <- <- <-. unfold coherent in *.
  destruct Hcase as [(_ & _ & _ & _ & _ & Hperm & (s & Hin & Hs & ->))
                    |[(_ & _ & _ & _ & Hfind & Hlive)|(_ & _ & -> & -> & _)]].
  - split; [by rewrite Hperm|]. intros _.
    rewrite Forall_forall in Hco. destruct (Hco s Hin) as (w & Hw & Hf).
    unfold holds in Hs. congruence.
  - split; [|done]. rewrite Hlive. apply Forall_take, Forall_cons. split; [|done].
    by exists q.
  - done.
Qed.

Lemma lookups_coherent (qs : list string) (c c' : Cache) (steps : list step) :
  cache_inv c -> coherent tbl c ->
  lookups tbl qs c = Some (steps, c') -> coherent tbl c'.
Proof.
  revert c steps. induction qs as [|q qs IH]; intros c steps Hinv Hco.
  - by intros [= <- <-].
  - destruct (lookup_with_cache_spec q c Hinv) as (r & c1 & out & Hlook & Hinv1 & _).
    destruct (lookup_coherent q c c1 r out Hinv Hco Hlook) as [Hco1 _].
    cbn [lookups]. rewrite Hlook. cbn [mbind option_bind].
    destruct (lookups tbl qs c1) as [[steps1 c2]|] eqn:Hrun; [|done].
    cbn [mbind option_bind]. intros [= <- <-]. by eapply IH.
Qed.

(** Lookups of distinct indexed words that are not cached stack up in
    front of the cache, the oldest falling off the back. *)
Lemma lookups_fresh (qs : list string) (c : Cache) :
  cache_inv c -> NoDup qs -> Forall (indexed tbl) qs ->
  (forall q, q ∈ qs -> q ∉ cached_words c) ->
  exists steps c',
    lookups tbl qs c = Some (steps, c') /\ cache_inv c' /\
    cached_words c' = take CAP (reverse qs ++ cached_words c).
Proof.
  revert c. induction qs as [|q qs IH]; intros c Hinv Hnd Hix Hfresh.
  - exists [], c. split; [done|]. split; [done|]. cbn. symmetry. apply take_ge.
    rewrite cached_words_length by apply Hinv. destruct Hinv as [[_ Hc _] _ _].
    unfold CAP. lia.
  - apply NoDup_cons in Hnd as [Hq Hnd]. apply Forall_cons in Hix as [Hqi Hix].
    destruct (lookup_with_cache_spec q c Hinv) as (r & c1 & out & Hlook & Hinv1 & Hcase).
    assert (cached_words c1 = take CAP (q :: cached_words c)) as Hc1.
    { destruct Hcase as [(Hin & _)|[(_ & _ & _ & Htake & _)|(_ & _ & _ & _ & Hni)]];
        [|done|done].
      exfalso. apply (Hfresh q); [apply list_elem_of_here|done]. }
    destruct (IH c1 Hinv1 Hnd Hix) as (steps & c' & Hrun & Hinv' & Hwords).
    { intros w Hw Hin. rewrite Hc1 in Hin. apply (subseteq_take CAP) in Hin.
      apply elem_of_cons in Hin as [->|Hin]; [done|].
      apply (Hfresh w); [by apply list_elem_of_further|done]. }
    cbn [lookups]. rewrite Hlook. cbn [mbind option_bind]. rewrite Hrun.
    cbn [mbind option_bind]. eexists _, c'. split; [done|]. split; [done|].
    rewrite Hwords, Hc1, take_app_take, reverse_cons, <- app_assoc. done.
Qed.

End Queries.

Lemma from_cache_ne : from_cache <> from_hash_table.
Proof. discriminate. Qed.

(** C4, as stated, fails for a word the index does not hold: "durian" is
    looked up in the empty index, nothing is printed and nothing is
    cached; it has then been queried and never evicted, and the next
    lookup still prints no line, neither the cache's nor the index's. *)
Lemma absent_word_has_no_provenance :
  lookups hash_table_init ["durian"] cache_init
    = Some ([mkStep "durian" EmptyString []], cache_init) /\
  queried_since_evicted "durian" [mkStep "durian" EmptyString []] /\
  lookup_with_cache "durian" hash_table_init cache_init
    = Some ([], cache_init, EmptyString) /\
  EmptyString <> from_cache /\ EmptyString <> from_hash_table.
Proof.
  split; [vm_compute; reflexivity|]. split; [|split; [vm_compute; reflexivity|done]].
  exists [], (mkStep "durian" EmptyString []), []. done.
Qed.

(** C4, amended: for a word that the index holds with a non-null list,
    after any sequence of lookups from the empty cache the next lookup of
    the word prints the cache's line or the index's line; the cache's
    exactly when the word was looked up in the sequence and not evicted
    by any later step; and the index's when the word was not looked up
    in the sequence at all. *)
Theorem provenance_along_traces (tbl : list (list WordEntry)) (qs : list string) (w : string) :
  Z.of_nat (length tbl) = HASH_SIZE ->
  indexed tbl w ->
  exists steps c r c' out,
    lookups tbl qs cache_init = Some (steps, c) /\
    st_word <$> steps = qs /\
    lookup_with_cache w tbl c = Some (r, c', out) /\
    (out = from_cache \/ out = from_hash_table) /\
    (out = from_cache <-> queried_since_evicted w steps) /\
    (w ∉ qs -> out = from_hash_table).
Proof.
  intros Hl Hw. assert (length tbl = Z.to_nat HASH_SIZE) as Hl' by lia.
  destruct (lookups_cached tbl Hl' qs cache_init cache_inv_init)
    as (steps & c & Hrun & Hinv & Hws & Hiff).
  destruct (lookup_with_cache_spec tbl Hl' w c Hinv) as (r & c' & out & Hlook & _ & Hcase).
  exists steps, c, r, c', out. split; [done|]. split; [done|]. split; [done|].
  assert (w ∈ cached_words c <-> queried_since_evicted w steps) as Hc.
  { rewrite (Hiff w Hw). split; [|by left]. intros [?|[Hin _]]; [done|].
    by apply elem_of_nil in Hin. }
  assert (queried_since_evicted w steps -> w ∈ qs) as Hq.
  { intros (pre & s & post & -> & <- & _). rewrite <- Hws, fmap_app, fmap_cons.
    apply elem_of_app. right. apply list_elem_of_here. }
  destruct Hcase as [(Hin & -> & _)|[(Hin & -> & _)|(_ & _ & _ & _ & Hni)]]; [| |done].
  - split; [by left|]. split; [by rewrite <- Hc|].
    intros Hnq. exfalso. apply Hnq, Hq. by apply Hc.
  - split; [by right|]. split; [|done]. rewrite <- Hc. split; [|done].
    intros H. symmetry in H. by apply from_cache_ne in H.
Qed.

Lemma provenance_along_traces_witness :
  exists steps c r c' out,
    lookups scenario_table ["apple"; "banana"] cache_init = Some (steps, c) /\
    st_word <$> steps = ["apple"; "banana"] /\
    lookup_with_cache "banana" scenario_table c = Some (r, c', out) /\
    (out = from_cache \/ out = from_hash_table) /\
    (out = from_cache <-> queried_since_evicted "banana" steps) /\
    ("banana" ∉ ["apple"; "banana"] -> out = from_hash_table).
Proof.
  apply (provenance_along_traces scenario_table ["apple"; "banana"] "banana").
  - vm_compute. reflexivity.
  - exists (mkWordEntry "banana" ["doc2.txt"; "doc1.txt"]).
    split; [vm_compute; reflexivity|discriminate].
Defined.

Lemma print_files_from_count (p : list string) (count : Z) :
  snd (print_files_from p count) = count + Z.of_nat (length p).
Proof.
  revert count. induction p as [|name next IH]; intros count; simpl; [lia|].
  specialize (IH (count + 1)). destruct (print_files_from next (count + 1)). simpl in *. lia.
Qed.

Lemma print_files_found (f : string) (fl : list string) :
  exists rest, print_files (f :: fl) = "found in: " +:+ f +:+ rest.
Proof.
  unfold print_files. cbn [print_files_from]. change (0 =? 0) with true. cbv iota.
  pose proof (print_files_from_count fl (0 + 1)) as Hc.
  destruct (print_files_from fl (0 + 1)) as [out count]. simpl in Hc.
  destruct (Z.eqb_spec count 0) as [?|_]; [lia|]. by eexists.
Qed.

(** C5, as stated, fails: in the two-document scenario the first lookup
    of "banana" is served from the index and prints "from hash table",
    the second is served from the cache and prints "from cache"; neither
    line is the one the claim quotes. *)
Lemma provenance_lines_as_printed :
  exists c1 c2,
    lookup_with_cache "banana" scenario_table cache_init
      = Some (["doc2.txt"; "doc1.txt"], c1, "from hash table" +:+ nl) /\
    lookup_with_cache "banana" scenario_table c1
      = Some (["doc2.txt"; "doc1.txt"], c2, "from cache" +:+ nl) /\
    "from hash table" +:+ nl <> "served from index" +:+ nl /\
    "from cache" +:+ nl <> "served from cache" +:+ nl.
Proof.
  eexists _, _. split; [vm_compute; reflexivity|].
  split; [vm_compute; reflexivity|]. split; discriminate.
Qed.

(** C5, amended: after any sequence of lookups, when [main] serves a
    line whose lookup finds a list, what it prints is one provenance
    line followed by the result line, which starts "found in: "; the
    provenance line is exactly "from cache" when [cache_get] returned the
    list, and exactly "from hash table" when [cache_get] returned null
    and the list came from [find_word_entry]. *)
Theorem provenance_line_then_result
    (tbl : list (list WordEntry)) (qs : list string) (line : string) :
  Z.of_nat (length tbl) = HASH_SIZE ->
  normalize_word_inplace line <> EmptyString ->
  exists steps c r c' out,
    lookups tbl qs cache_init = Some (steps, c) /\
    lookup_with_cache (normalize_word_inplace line) tbl c = Some (r, c', out) /\
    (r <> [] ->
       serve line tbl c = Some (c', out +:+ print_files r) /\
       (exists rest, print_files r = "found in: " +:+ rest) /\
       ((cache_get (normalize_word_inplace line) c = Some (r, c')
         /\ out = "from cache" +:+ nl)
        \/ (cache_get (normalize_word_inplace line) c = Some ([], c)
            /\ find_word_entry (normalize_word_inplace line) tbl
               = Some (Some (mkWordEntry (normalize_word_inplace line) r))
            /\ out = "from hash table" +:+ nl))).
Proof.
  intros Hl Hne. assert (length tbl = Z.to_nat HASH_SIZE) as Hl' by lia.
  destruct (lookups_cached tbl Hl' qs cache_init cache_inv_init)
    as (steps & c & Hrun & Hinv & _).
  set (word := normalize_word_inplace line) in *.
  destruct (lookup_with_cache_spec tbl Hl' word c Hinv) as (r & c' & out & Hlook & _ & Hcase).
  exists steps, c, r, c', out. split; [done|]. split; [done|]. intros Hr.
  split; [|split].
  - unfold serve. fold word. destruct word as [|a word']; [done|].
    rewrite Hlook. cbn [mbind option_bind]. by destruct r.
  - destruct r as [|f fl]; [done|].
    destruct (print_files_found f fl) as [rest Hrest]. eexists. exact Hrest.
  - destruct Hcase as [(_ & -> & _ & _ & Hget & _)|[(Hq & -> & _ & _ & Hfind & _)|(_ & _ & -> & _)]];
      [by left| |done].
    right. split; [|done].
    destruct (cache_get_inv word c Hinv) as (r1 & c1 & Hget & _ & _ & Hr1 & Hmiss & _).
    rewrite Hget. rewrite (Hmiss Hq). f_equal. f_equal.
    destruct r1; [done|]. exfalso. apply Hq, Hr1. done.
Qed.

Lemma provenance_line_then_result_witness :
  exists steps c r c' out,
    lookups scenario_table ["banana"] cache_init = Some (steps, c) /\
    lookup_with_cache (normalize_word_inplace "Banana!") scenario_table c = Some (r, c', out) /\
    (r <> [] ->
       serve "Banana!" scenario_table c = Some (c', out +:+ print_files r) /\
       (exists rest, print_files r = "found in: " +:+ rest) /\
       ((cache_get (normalize_word_inplace "Banana!") c = Some (r, c')
         /\ out = "from cache" +:+ nl)
        \/ (cache_get (normalize_word_inplace "Banana!") c = Some ([], c)
            /\ find_word_entry (normalize_word_inplace "Banana!") scenario_table
               = Some (Some (mkWordEntry (normalize_word_inplace "Banana!") r))
            /\ out = "from hash table" +:+ nl))).
Proof.
  apply (provenance_line_then_result scenario_table ["banana"] "Banana!").
  - vm_compute. reflexivity.
  - vm_compute. discriminate.
Defined.


(** ** The cache against the index *)

Lemma coherent_init (tbl : list (list WordEntry)) : coherent tbl cache_init.
Proof. unfold coherent. change (live cache_init) with (@nil CacheSlot). constructor. Qed.

(** X1: the cache is transparent.  After any sequence of lookups, what
    [lookup_with_cache] returns for a word is the list that
    [find_word_entry] has for it, and null when the index has no entry
    for the word. *)
Theorem lookup_returns_index_list
    (tbl : list (list WordEntry)) (qs : list string) (w : string) :
  Z.of_nat (length tbl) = HASH_SIZE ->
  exists steps c r c' out,
    lookups tbl qs cache_init = Some (steps, c) /\
    lookup_with_cache w tbl c = Some (r, c', out) /\
    r = match find_word_entry w tbl with
        | Some (Some e) => we_files e
        | _ => []
        end.
Proof.
  intros Hl. assert (length tbl = Z.to_nat HASH_SIZE) as Hl' by lia.
  destruct (lookups_cached tbl Hl' qs cache_init cache_inv_init)
    as (steps & c & Hrun & Hinv & _).
  pose proof (lookups_coherent tbl Hl' qs _ _ _ cache_inv_init (coherent_init tbl) Hrun) as Hco.
  destruct (lookup_with_cache_spec tbl Hl' w c Hinv) as (r & c' & out & Hlook & _ & Hcase).
  destruct (lookup_coherent tbl Hl' w c c' r out Hinv Hco Hlook) as [_ Hr].
  exists steps, c, r, c', out. split; [done|]. split; [done|].
  destruct r as [|f fl].
  - destruct Hcase as [(_ & _ & ? & _)|[(_ & _ & ? & _)|(_ & _ & _ & _ & Hni)]]; [done..|].
    destruct (find_word_entry w tbl) as [[e|]|] eqn:Hf; [|done..].
    destruct (we_files e) eqn:He; [done|]. exfalso. apply Hni. exists e. by rewrite He.
  - by rewrite Hr.
Qed.

Lemma lookup_returns_index_list_witness :
  exists steps c r c' out,
    lookups scenario_table ["banana"; "apple"] cache_init = Some (steps, c) /\
    lookup_with_cache "banana" scenario_table c = Some (r, c', out) /\
    r = match find_word_entry "banana" scenario_table with
        | Some (Some e) => we_files e
        | _ => []
        end.
Proof.
  apply (lookup_returns_index_list scenario_table ["banana"; "apple"] "banana").
  vm_compute. reflexivity.
Defined.

(** X2: least recently used goes first.  When a word is looked up and
    then at least [CACHE_CAP] other words, all distinct and all in the
    index, the cache holds the last [CACHE_CAP] of them, most recent
    first, and the next lookup of the first word is served from the
    index again. *)
Theorem oldest_word_is_evicted
    (tbl : list (list WordEntry)) (w : string) (qs : list string) :
  Z.of_nat (length tbl) = HASH_SIZE ->
  NoDup (w :: qs) ->
  Forall (indexed tbl) (w :: qs) ->
  CACHE_CAP <= Z.of_nat (length qs) ->
  exists steps c r c' out,
    lookups tbl (w :: qs) cache_init = Some (steps, c) /\
    cached_words c = take CAP (reverse qs) /\
    lookup_with_cache w tbl c = Some (r, c', out) /\
    out = from_hash_table.
Proof.
  intros Hl Hnd Hix Hlen. assert (length tbl = Z.to_nat HASH_SIZE) as Hl' by lia.
  destruct (lookups_fresh tbl Hl' (w :: qs) cache_init cache_inv_init Hnd Hix)
    as (steps & c & Hrun & Hinv & Hwords).
  { intros q _ Hin. by apply elem_of_nil in Hin. }
  assert (cached_words c = take CAP (reverse qs)) as Hc.
  { rewrite Hwords, reverse_cons. change (cached_words cache_init) with (@nil string).
    rewrite app_nil_r. apply take_app_le. rewrite length_reverse. unfold CAP. lia. }
  destruct (lookup_with_cache_spec tbl Hl' w c Hinv) as (r & c' & out & Hlook & _ & Hcase).
  exists steps, c, r, c', out. split; [done|]. split; [done|]. split; [done|].
  apply NoDup_cons in Hnd as [Hw _]. apply Forall_cons in Hix as [Hwi _].
  destruct Hcase as [(Hin & _)|[(_ & -> & _)|(_ & _ & _ & _ & Hni)]]; [|done|done].
  exfalso. apply Hw. rewrite Hc in Hin. apply (subseteq_take CAP) in Hin.
  by rewrite elem_of_reverse in Hin.
Qed.

Lemma oldest_word_is_evicted_witness :
  exists steps c r c' out,
    lookups six_words_table ["one"; "two"; "three"; "four"; "five"; "six"] cache_init
      = Some (steps, c) /\
    cached_words c = take CAP (reverse ["two"; "three"; "four"; "five"; "six"]) /\
    lookup_with_cache "one" six_words_table c = Some (r, c', out) /\
    out = from_hash_table.
Proof.
  apply (oldest_word_is_evicted six_words_table "one" ["two"; "three"; "four"; "five"; "six"]).
  - vm_compute. reflexivity.
  - apply (bool_decide_unpack _). vm_compute. exact I.
  - repeat (apply Forall_cons; split;
            [eexists; split; [vm_compute; reflexivity|discriminate]|]).
    apply Forall_nil_2.
  - vm_compute. discriminate.
Defined.

(** ** Parsing *)

Lemma tolower_token_char (ch : ascii) : isalnum ch = true -> token_char (tolower ch).
Proof.
  destruct ch as [[] [] [] [] [] [] [] []]; vm_compute; (discriminate || by split).
Qed.

Lemma list_ascii_app (a b : string) :
  list_ascii_of_string (a +:+ b) = list_ascii_of_string a ++ list_ascii_of_string b.
Proof. induction a as [|ch a IH]; [done|]. simpl. f_equal. exact IH. Qed.

Lemma strlen_pos (buf : string) : (0 <? strlen buf) = true -> buf <> EmptyString.
Proof. by destruct buf. Qed.

(** The recording run of [scan]: it never fails, it appends to the log,
    and what it appends does not depend on the log. *)
Lemma scan_log (content buf : string) (log : list string) :
  scan (fun w log => Some (log ++ [w])) content buf log
  = Some (log ++ tokens_from content buf).
Proof.
  unfold tokens_from. revert buf log.
  induction content as [|ch rest IH]; intros buf log; cbn [scan].
  - destruct (0 <? strlen buf); cbn; [done|by rewrite app_nil_r].
  - destruct (isalnum ch).
    + destruct (strlen buf <? 256 - 1); rewrite IH, (IH _ []); done.
    + destruct (0 <? strlen buf); cbn [mbind option_bind].
      * rewrite IH, (IH _ ([] ++ [buf])). cbn. by rewrite <- app_assoc.
      * rewrite IH, (IH _ []). done.
Qed.

Lemma tokens_from_ok (content buf : string) :
  Forall token_char (list_ascii_of_string buf) ->
  Forall token_ok (tokens_from content buf).
Proof.
  revert buf. induction content as [|ch rest IH]; intros buf Hbuf.
  - unfold tokens_from. cbn [scan].
    destruct (0 <? strlen buf) eqn:E; cbn; [|done].
    apply Forall_cons. split; [|done]. split; [by apply strlen_pos|done].
  - unfold tokens_from. cbn [scan]. destruct (isalnum ch) eqn:Ech.
    + destruct (strlen buf <? 256 - 1); [|by apply IH].
      apply IH. rewrite list_ascii_app. apply Forall_app. split; [done|].
      cbn. apply Forall_cons. split; [by apply tolower_token_char|done].
    + destruct (0 <? strlen buf) eqn:E; [|by apply IH].
      cbn [mbind option_bind]. rewrite scan_log. cbn.
      apply Forall_cons. split; [split; [by apply strlen_pos|done]|].
      by apply IH.
Qed.

(** [scan] with any [emit] is [emit] on the recorded words in turn. *)
Lemma scan_emit_all {St : Type} (emit : string -> St -> option St)
    (content buf : string) (st : St) :
  scan emit content buf st = emit_all emit (tokens_from content buf) st.
Proof.
  revert buf st. induction content as [|ch rest IH]; intros buf st.
  - unfold tokens_from. cbn [scan]. destruct (0 <? strlen buf); cbn; [|done].
    by destruct (emit buf st).
  - unfold tokens_from. cbn [scan]. destruct (isalnum ch).
    + destruct (strlen buf <? 256 - 1); apply IH.
    + destruct (0 <? strlen buf); [|apply IH].
      cbn [mbind option_bind]. rewrite scan_log. cbn.
      destruct (emit buf st) as [st'|]; cbn; [apply IH|done].
Qed.

(** C7: the words [index_file] passes to [insert_word] for the input
    "Doc1 has: apple, Apple!" are "doc1", "has", "apple", "apple"; a word
    pending at the end of the input is passed on; for every input each
    word passed on is non-empty and made of alphanumeric characters, none
    upper case; and [index_file] is [insert_word] on these words in
    order. *)
Theorem tokens_of_sample_line :
  tokens "Doc1 has: apple, Apple!" = ["doc1"; "has"; "apple"; "apple"] /\
  tokens "..apple;;Banana" = ["apple"; "banana"] /\
  tokens " ,;!" = [] /\
  (forall content, Forall token_ok (tokens content)) /\
  (forall content displayname ix,
      index_file (fun _ => Some content) "texts/doc1.txt" displayname ix
      = emit_all (fun w => insert_word (Some w) displayname) (tokens content) ix).
Proof.
  split; [reflexivity|]. split; [reflexivity|]. split; [reflexivity|]. split.
  - intros content. by apply tokens_from_ok.
  - intros content displayname ix. unfold index_file. apply scan_emit_all.
Qed.

Lemma strlen_snoc (buf : string) (ch : ascii) :
  strlen (buf +:+ String ch EmptyString) = strlen buf + 1.
Proof.
  unfold strlen.
  assert (String.length (buf +:+ String ch EmptyString) = S (String.length buf)) as ->; [|lia].
  induction buf as [|a buf IH]; [done|]. simpl. by f_equal.
Qed.

Lemma tokens_from_fit (content buf : string) :
  strlen buf <= 255 ->
  Forall (fun t => strlen t <= 255) (tokens_from content buf).
Proof.
  revert buf. induction content as [|ch rest IH]; intros buf Hbuf.
  - unfold tokens_from. cbn [scan]. destruct (0 <? strlen buf); cbn; [|done].
    by apply Forall_cons.
  - unfold tokens_from. cbn [scan]. destruct (isalnum ch).
    + destruct (Z.ltb_spec (strlen buf) (256 - 1)); [|by apply IH].
      apply IH. rewrite strlen_snoc. lia.
    + destruct (0 <? strlen buf); [|by apply IH].
      cbn [mbind option_bind]. rewrite scan_log. cbn.
      apply Forall_cons. split; [done|]. by apply IH.
Qed.

(** X3: the buffer of [index_file] is not overrun.  No word passed to
    [insert_word] is longer than 255 characters, so with its terminator
    it fits the 256 bytes of [buf]; a run of 300 letters is passed on as
    its first 255, in lower case. *)
Theorem tokens_fit_buffer :
  (forall content, Forall (fun t => strlen t <= 256 - 1) (tokens content)) /\
  tokens long_run = [string_of_list_ascii (replicate 255 "a"%char)].
Proof.
  split; [|vm_compute; reflexivity].
  intros content. by apply tokens_from_fit.
Qed.

(** ** The scenario, the empty word and the hash bound *)

(** C6: with doc1.txt holding "apple banana" and doc2.txt holding
    "banana cherry", parsed in this order, the entry of "banana" lists
    doc2.txt before doc1.txt; the first lookup of "banana" prints the
    index's line and returns that list, the second prints the cache's
    line and returns the same list; and [main] on the two queries prints
    the two answers in this way. *)
Theorem banana_scenario :
  hash_table <$> scenario_index = Some scenario_table /\
  find_word_entry "banana" scenario_table
    = Some (Some (mkWordEntry "banana" ["doc2.txt"; "doc1.txt"])) /\
  (exists c1 c2,
      lookup_with_cache "banana" scenario_table cache_init
        = Some (["doc2.txt"; "doc1.txt"], c1, from_hash_table) /\
      lookup_with_cache "banana" scenario_table c1
        = Some (["doc2.txt"; "doc1.txt"], c2, from_cache)) /\
  main scenario_files ["banana" +:+ nl; "banana" +:+ nl] []
    = Some ("indexed files from ./texts (doc1.txt, doc2.txt, doc3.txt)" +:+ nl
            +:+ "type a word to search (empty line to quit)" +:+ nl
            +:+ "> from hash table" +:+ nl +:+ "found in: doc2.txt doc1.txt" +:+ nl
            +:+ "> from cache" +:+ nl +:+ "found in: doc2.txt doc1.txt" +:+ nl
            +:+ "> ").
Proof.
  split; [vm_compute; reflexivity|]. split; [vm_compute; reflexivity|].
  split; [|vm_compute; reflexivity].
  eexists _, _. split; vm_compute; reflexivity.
Qed.

(** C8: [insert_word] on the empty word returns at its guard: the call
    is defined and the table, every chain and list in it, and the
    allocator are as before; so dropping such a call from a sequence of
    insertions changes nothing. *)
Theorem insert_empty_word_noop (filename : string) :
  (forall ix, insert_word (Some EmptyString) filename ix = Some ix) /\
  (forall before after ix,
      insert_all (before ++ (Some EmptyString, filename) :: after) ix
      = insert_all (before ++ after) ix).
Proof.
  split; [done|]. intros before after.
  induction before as [|[word d] before IH]; intros ix; [done|].
  cbn [app insert_all]. destruct (insert_word word d ix) as [ix'|]; [|done].
  apply IH.
Qed.

(** C9: [hash_str] returns an index below [HASH_SIZE]; so in a table of
    [HASH_SIZE] buckets the bucket read by [find_word_entry] and read and
    written by [insert_word] exists, both calls are defined, and
    [insert_word] leaves a table of [HASH_SIZE] buckets. *)
Theorem hash_str_in_bounds (s : string) :
  0 <= hash_str s < HASH_SIZE /\
  forall tbl : list (list WordEntry),
    Z.of_nat (length tbl) = HASH_SIZE ->
    is_Some (tbl !! Z.to_nat (hash_str s)) /\
    is_Some (find_word_entry s tbl) /\
    forall filename h, exists ix',
      insert_word (Some s) filename (mkIndex tbl h) = Some ix' /\
      Z.of_nat (length (hash_table ix')) = HASH_SIZE.
Proof.
  split; [apply hash_str_range|]. intros tbl Hl.
  assert (length tbl = Z.to_nat HASH_SIZE) as Hl' by lia.
  split; [|split].
  - apply lookup_lt_is_Some_2. pose proof (hash_str_range s). lia.
  - by apply find_word_entry_defined.
  - intros filename h.
    destruct (insert_word_defined (Some s) filename (mkIndex tbl h) Hl') as [ix' Hix].
    exists ix'. split; [done|]. apply length_insert_word in Hix. cbn in Hix. lia.
Qed.

Lemma hash_str_in_bounds_witness :
  0 <= hash_str "banana" < HASH_SIZE /\
  (is_Some (hash_table_init !! Z.to_nat (hash_str "banana")) /\
   is_Some (find_word_entry "banana" hash_table_init) /\
   forall filename h, exists ix',
     insert_word (Some "banana") filename (mkIndex hash_table_init h) = Some ix' /\
     Z.of_nat (length (hash_table ix')) = HASH_SIZE).
Proof.
  split.
  - apply (hash_str_in_bounds "banana").
  - apply (proj2 (hash_str_in_bounds "banana") hash_table_init).
    vm_compute. reflexivity.
Defined.

(** ** The index as a map: what insertions do to lookups *)

Lemma add_file_to_list_cases (e e' : WordEntry) (filename : string) (h h' : Heap) :
  add_file_to_list e filename h = (e', h') ->
  we_word e' = we_word e /\
  (we_files e' = we_files e \/
   ((filename ∉ we_files e) /\ we_files e' = filename :: we_files e)) /\
  (never_fails h ->
   never_fails h' /\
   we_files e' = if decide (filename ∈ we_files e) then we_files e
                 else filename :: we_files e).
Proof.
  unfold add_file_to_list.
  destruct (filelist_contains (we_files e) filename) eqn:Hc.
  { intros [= <- <-]. apply filelist_contains_spec in Hc.
    split; [done|]. split; [by left|]. intros Hh. by rewrite decide_True. }
  assert (filename ∉ we_files e) as Hni.
  { intros Hin. apply filelist_contains_spec in Hin. congruence. }
  destruct (malloc h) as [[] h1] eqn:E1; cbn [negb].
  2:{ intros [= <- <-]. split; [done|]. split; [by left|]. intros Hh. malloc_ok Hh E1. }
  destruct (malloc h1) as [[] h2] eqn:E2; cbn [negb].
  2:{ intros [= <- <-]. split; [done|]. split; [by left|].
      intros Hh. malloc_ok Hh E1. malloc_ok Hh0 E2. }
  intros [= <- <-]. cbn. split; [done|]. split; [by right|].
  intros Hh. malloc_ok Hh E1. malloc_ok Hh0 E2. by rewrite decide_False.
Qed.

Lemma chain_find_None (p : list WordEntry) (w : string) :
  chain_find p w = None <-> w ∉ we_word <$> p.
Proof.
  induction p as [|e p IH]; simpl.
  - split; [intros _ H; by apply elem_of_nil in H|done].
  - rewrite not_elem_of_cons. destruct (String.eqb_spec (we_word e) w) as [Heq|Hne].
    + split; [done|]. by intros [? _].
    + rewrite IH. split; [by split|by intros [_ ?]].
Qed.

Lemma chain_insert_words (p p' : list WordEntry) (word filename : string) (h h' : Heap) :
  chain_insert p word filename h = Some (p', h') ->
  we_word <$> p' = we_word <$> p.
Proof.
  revert p'. induction p as [|e next IH]; intros p'; [done|]. simpl.
  destruct (String.eqb (we_word e) word).
  - destruct (add_file_to_list e filename h) as [e1 h1] eqn:Hadd. intros [= <- <-].
    apply add_file_to_list_cases in Hadd as (Hw & _). cbn. by rewrite Hw.
  - destruct (chain_insert next word filename h) as [[next' h1]|]; [|done].
    intros [= <- <-]. cbn. f_equal. by apply IH.
Qed.

(** What one effective call of [insert_word] does to the results of
    [find_word_entry]: nothing for the other words, and for its own word
    either [add_file_to_list] on the entry found, or, when there is
    none, a new entry unless one of its two allocations fails. *)
Lemma insert_word_find (w filename : string) (ix ix' : Index) :
  w <> EmptyString ->
  insert_word (Some w) filename ix = Some ix' ->
  (forall w2, w2 <> w ->
     find_word_entry w2 (hash_table ix') = find_word_entry w2 (hash_table ix)) /\
  exists oe,
    find_word_entry w (hash_table ix) = Some oe /\
    match oe with
    | Some e =>
        exists e', add_file_to_list e filename (heap ix) = (e', heap ix') /\
                   find_word_entry w (hash_table ix') = Some (Some e')
    | None =>
        (hash_table ix' = hash_table ix /\ ~ never_fails (heap ix))
        \/ (exists h2 e',
               (never_fails (heap ix) -> never_fails h2) /\
               add_file_to_list (mkWordEntry w []) filename h2 = (e', heap ix') /\
               find_word_entry w (hash_table ix') = Some (Some e'))
    end.
Proof.
  intros Hw. unfold insert_word. destruct w as [|a w0]; [done|].
  set (w := String a w0) in *. set (idx := Z.to_nat (hash_str w)).
  destruct (hash_table ix !! idx) as [p|] eqn:Hp; [|done]. cbn [mbind option_bind].
  pose proof (lookup_lt_Some _ _ _ Hp) as Hlt.
  assert (forall w2, Z.to_nat (hash_str w2) = idx ->
            find_word_entry w2 (hash_table ix) = Some (chain_find p w2)) as Hold.
  { intros w2 Hi. unfold find_word_entry. by rewrite Hi, Hp. }
  destruct (chain_insert p w filename (heap ix)) as [[p' h']|] eqn:Hci.
  - intros [= <-]. cbn [hash_table heap].
    destruct (chain_insert_Some _ _ _ _ _ _ Hci) as ((e & e' & He & He' & Hadd) & Hother & _).
    split.
    + intros w2 Hne. destruct (decide (Z.to_nat (hash_str w2) = idx)) as [Hi|Hi].
      * rewrite find_insert_same, (Hold w2 Hi) by done. f_equal. by apply Hother.
      * by apply find_insert_other.
    + exists (Some e). split; [by rewrite (Hold w eq_refl), He|].
      exists e'. split; [done|]. rewrite find_insert_same by done. by rewrite He'.
  - apply chain_insert_None in Hci.
    assert (forall e1 w2, we_word e1 = w -> w2 <> w ->
              find_word_entry w2 (<[idx := e1 :: p]> (hash_table ix))
              = find_word_entry w2 (hash_table ix)) as Hframe.
    { intros e1 w2 He1 Hne. destruct (decide (Z.to_nat (hash_str w2) = idx)) as [Hi|Hi].
      - rewrite find_insert_same, (Hold w2 Hi) by done. f_equal. simpl. rewrite He1.
        by destruct (String.eqb_spec w w2).
      - by apply find_insert_other. }
    destruct (malloc (heap ix)) as [[] h1] eqn:E1; cbn [negb].
    2:{ intros [= <-]. cbn [hash_table heap]. split; [done|].
        exists None. split; [by rewrite (Hold w eq_refl), Hci|]. left.
        split; [done|]. intros Hh. malloc_ok Hh E1. }
    destruct (malloc h1) as [[] h2] eqn:E2; cbn [negb].
    2:{ intros [= <-]. cbn [hash_table heap]. split; [done|].
        exists None. split; [by rewrite (Hold w eq_refl), Hci|]. left.
        split; [done|]. intros Hh. malloc_ok Hh E1. malloc_ok Hh0 E2. }
    destruct (add_file_to_list (mkWordEntry w []) filename h2) as [e' h3] eqn:Hadd.
    intros [= <-]. cbn [hash_table heap].
    pose proof (add_file_to_list_cases _ _ _ _ _ Hadd) as (Hword & _). cbn in Hword.
    split; [intros w2 Hne; by apply Hframe|].
    exists None. split; [by rewrite (Hold w eq_refl), Hci|]. right.
    exists h2, e'. split; [|split; [done|]].
    + intros Hh. malloc_ok Hh E1. by malloc_ok Hh0 E2.
    + rewrite find_insert_same by done. simpl. rewrite Hword.
      by destruct (String.eqb_spec w w).
Qed.

Lemma add_doc_other (word : option string) (d w : string) (acc : list string) :
  word <> Some w -> add_doc word d w acc = acc.
Proof. intros Hne. unfold add_doc. rewrite decide_False; [done|]. by intros [? _]. Qed.

Lemma add_doc_same (d w : string) (acc : list string) :
  w <> EmptyString ->
  add_doc (Some w) d w acc = if decide (d ∈ acc) then acc else d :: acc.
Proof.
  intros Hw. unfold add_doc. destruct (decide (d ∈ acc)) as [Hin|Hni].
  - rewrite decide_False; [done|]. by intros (_ & _ & ?).
  - by rewrite decide_True.
Qed.

(** A call of [insert_word] is all or nothing for the lists a lookup can
    serve: either the list of every word is as before, or the list of
    every word is as [add_doc] says; the latter when no allocation
    fails. *)
Lemma insert_word_files (word : option string) (filename : string) (ix ix' : Index) :
  insert_word word filename ix = Some ix' ->
  ((forall w, files_of (hash_table ix') w = files_of (hash_table ix) w)
   \/ (forall w, files_of (hash_table ix') w
                 = add_doc word filename w (files_of (hash_table ix) w))) /\
  (never_fails (heap ix) ->
   never_fails (heap ix') /\
   forall w, files_of (hash_table ix') w
             = add_doc word filename w (files_of (hash_table ix) w)).
Proof.
  intros Hins. destruct word as [w0|].
  2:{ injection Hins as <-. split; [by left|]. intros Hh. split; [done|].
      intros w. by rewrite add_doc_other. }
  destruct (decide (w0 = EmptyString)) as [->|Hw0].
  { injection Hins as <-. split; [by left|]. intros Hh. split; [done|].
    intros w. unfold add_doc. rewrite decide_False; [done|].
    intros ([= <-] & ? & _). done. }
  destruct (insert_word_find w0 filename ix ix' Hw0 Hins) as (Hframe & oe & Hold & Hnew).
  assert (forall w, w <> w0 ->
            files_of (hash_table ix') w
            = add_doc (Some w0) filename w (files_of (hash_table ix) w)) as Hother.
  { intros w Hne. rewrite add_doc_other by congruence.
    unfold files_of. by rewrite Hframe. }
  assert (files_of (hash_table ix') w0 = files_of (hash_table ix) w0 ->
          forall w, files_of (hash_table ix') w = files_of (hash_table ix) w) as Hsame.
  { intros H0 w. destruct (decide (w = w0)) as [->|Hne]; [done|].
    unfold files_of. by rewrite Hframe. }
  assert (forall old,
            files_of (hash_table ix) w0 = old ->
            files_of (hash_table ix') w0 = (if decide (filename ∈ old) then old
                                            else filename :: old) ->
            forall w, files_of (hash_table ix') w
                      = add_doc (Some w0) filename w (files_of (hash_table ix) w)) as Hadded.
  { intros old Ho Hn w. destruct (decide (w = w0)) as [->|Hne]; [|by apply Hother].
    rewrite add_doc_same by done. by rewrite Ho. }
  destruct oe as [e|].
  - destruct Hnew as (e' & Hadd & Hfind).
    assert (files_of (hash_table ix) w0 = we_files e) as Ho
      by (unfold files_of; by rewrite Hold).
    assert (files_of (hash_table ix') w0 = we_files e') as Hn
      by (unfold files_of; by rewrite Hfind).
    apply add_file_to_list_cases in Hadd as (_ & Hcases & Hok).
    split.
    + destruct Hcases as [Heq|[Hni Heq]]; [left; apply Hsame; congruence|].
      right. apply (Hadded _ Ho). rewrite decide_False by done. congruence.
    + intros Hh. destruct (Hok Hh) as [Hh' Heq]. split; [done|].
      apply (Hadded _ Ho). congruence.
  - assert (files_of (hash_table ix) w0 = []) as Ho
      by (unfold files_of; by rewrite Hold).
    destruct Hnew as [[Htbl Hfail]|(h2 & e' & Hh2 & Hadd & Hfind)].
    + split; [|done]. left. intros w. by rewrite Htbl.
    + assert (files_of (hash_table ix') w0 = we_files e') as Hn
        by (unfold files_of; by rewrite Hfind).
      apply add_file_to_list_cases in Hadd as (_ & Hcases & Hok). cbn in Hcases, Hok.
      split.
      * destruct Hcases as [Heq|[Hni Heq]]; [left; apply Hsame; congruence|].
        right. apply (Hadded _ Ho). rewrite decide_False by (by intros H%elem_of_nil).
        congruence.
      * intros Hh. destruct (Hok (Hh2 Hh)) as [Hh' Heq]. split; [done|].
        apply (Hadded _ Ho). congruence.
Qed.

Lemma files_of_init (w : string) : files_of hash_table_init w = [].
Proof.
  unfold files_of, find_word_entry, hash_table_init.
  destruct (replicate _ _ !! _) as [p|] eqn:Hp; [|done].
  apply lookup_replicate in Hp as [-> _]. done.
Qed.

Lemma insert_all_defined (calls : list (option string * string)) (ix : Index) :
  length (hash_table ix) = Z.to_nat HASH_SIZE ->
  exists ix', insert_all calls ix = Some ix' /\
              length (hash_table ix') = Z.to_nat HASH_SIZE.
Proof.
  revert ix. induction calls as [|[word d] calls IH]; intros ix Hl; [by exists ix|].
  destruct (insert_word_defined word d ix Hl) as [ix1 Hins].
  cbn [insert_all]. rewrite Hins. cbn [mbind option_bind]. apply IH.
  destruct word as [w|]; [|by injection Hins as <-].
  by rewrite (length_insert_word _ _ _ _ Hins).
Qed.

Lemma add_doc_suffix (word : option string) (d w : string) (acc : list string) :
  acc `suffix_of` add_doc word d w acc.
Proof. unfold add_doc. case_decide; [by apply suffix_cons_r|done]. Qed.

Lemma insert_all_files (calls : list (option string * string)) (ix : Index) :
  length (hash_table ix) = Z.to_nat HASH_SIZE ->
  never_fails (heap ix) ->
  exists ix',
    insert_all calls ix = Some ix' /\ never_fails (heap ix') /\
    forall w, files_of (hash_table ix') w = docs_after calls w (files_of (hash_table ix) w).
Proof.
  revert ix. induction calls as [|[word d] calls IH]; intros ix Hl Hh; [by exists ix|].
  destruct (insert_all_defined [(word, d)] ix Hl) as (ix1 & Hins & Hl1).
  cbn [insert_all] in Hins.
  destruct (insert_word word d ix) as [ix0|] eqn:Hins0; [|done]. injection Hins as ->.
  destruct (insert_word_files _ _ _ _ Hins0) as [_ Hok]. destruct (Hok Hh) as [Hh1 Hfiles].
  destruct (IH ix1 Hl1 Hh1) as (ix' & Hrun & Hh' & Hall).
  exists ix'. cbn [insert_all]. rewrite Hins0. cbn [mbind option_bind].
  split; [done|]. split; [done|]. intros w. cbn [docs_after]. by rewrite Hall, Hfiles.
Qed.

Lemma insert_all_suffix (calls : list (option string * string)) (ix : Index) :
  length (hash_table ix) = Z.to_nat HASH_SIZE ->
  exists ix',
    insert_all calls ix = Some ix' /\
    forall w, files_of (hash_table ix) w `suffix_of` files_of (hash_table ix') w.
Proof.
  revert ix. induction calls as [|[word d] calls IH]; intros ix Hl; [by exists ix|].
  destruct (insert_all_defined [(word, d)] ix Hl) as (ix1 & Hins & Hl1).
  cbn [insert_all] in Hins.
  destruct (insert_word word d ix) as [ix0|] eqn:Hins0; [|done]. injection Hins as ->.
  destruct (insert_word_files _ _ _ _ Hins0) as [Hcases _].
  destruct (IH ix1 Hl1) as (ix' & Hrun & Hall).
  exists ix'. cbn [insert_all]. rewrite Hins0. cbn [mbind option_bind].
  split; [done|]. intros w. etrans; [|apply Hall].
  destruct Hcases as [Heq|Heq]; rewrite Heq; [done|apply add_doc_suffix].
Qed.

(** X4: the hash table implements a map from words to lists.  When no
    allocation fails, after any sequence of calls of [insert_word] on
    the initial table the list a lookup finds for a word is the one
    obtained by replaying the calls for that word on the empty list,
    each new name going in front and a repeated name changing nothing;
    calls with a null or empty word count for nothing. *)
Theorem index_is_a_map (calls : list (option string * string)) (h : Heap) :
  never_fails h ->
  exists ix,
    insert_all calls (mkIndex hash_table_init h) = Some ix /\
    forall w, files_of (hash_table ix) w = docs_after calls w [].
Proof.
  intros Hh.
  destruct (insert_all_files calls (mkIndex hash_table_init h)) as (ix & Hrun & _ & Hall);
    [apply length_replicate|done|].
  exists ix. split; [done|]. intros w. by rewrite Hall, files_of_init.
Qed.

Lemma index_is_a_map_witness :
  exists ix,
    insert_all [(Some "b", "d1"); (Some "a", "d1"); (None, "d2"); (Some "b", "d2");
                (Some "b", "d1")] (mkIndex hash_table_init [true]) = Some ix /\
    forall w, files_of (hash_table ix) w
              = docs_after [(Some "b", "d1"); (Some "a", "d1"); (None, "d2");
                            (Some "b", "d2"); (Some "b", "d1")] w [].
Proof.
  apply (index_is_a_map _ [true]). repeat constructor.
Defined.

(** X5: document lists only grow, and at the front.  Whatever the
    allocator does, after any further calls of [insert_word] the list
    that was found for a word before is a suffix of the list found for
    it afterwards: a pointer to it, as the cache holds, stays a pointer
    into the entry's list. *)
Theorem lists_grow_at_the_front
    (calls : list (option string * string)) (ix : Index) :
  Z.of_nat (length (hash_table ix)) = HASH_SIZE ->
  exists ix',
    insert_all calls ix = Some ix' /\
    forall w, files_of (hash_table ix) w `suffix_of` files_of (hash_table ix') w.
Proof. intros Hl. apply insert_all_suffix. lia. Qed.

Lemma lists_grow_at_the_front_witness :
  exists ix',
    insert_all [(Some "banana", "doc3.txt")] (mkIndex scenario_table [false]) = Some ix' /\
    forall w, files_of scenario_table w `suffix_of` files_of (hash_table ix') w.
Proof.
  apply (lists_grow_at_the_front _ (mkIndex scenario_table [false])).
  vm_compute. reflexivity.
Defined.

(** X6: a call of [insert_word] is all or nothing for what lookups see.
    Whether its allocations succeed or not, afterwards either every
    word has the list it had, or every word has the list [add_doc]
    gives: the word's own list with the name put in front if it is new,
    the other lists as they were.  When no allocation fails it is the
    second. *)
Theorem insert_word_all_or_nothing
    (word : option string) (filename : string) (ix : Index) :
  Z.of_nat (length (hash_table ix)) = HASH_SIZE ->
  exists ix',
    insert_word word filename ix = Some ix' /\
    ((forall w, files_of (hash_table ix') w = files_of (hash_table ix) w)
     \/ (forall w, files_of (hash_table ix') w
                   = add_doc word filename w (files_of (hash_table ix) w))) /\
    (never_fails (heap ix) ->
     forall w, files_of (hash_table ix') w
               = add_doc word filename w (files_of (hash_table ix) w)).
Proof.
  intros Hl. destruct (insert_word_defined word filename ix) as [ix' Hins]; [lia|].
  exists ix'. split; [done|].
  destruct (insert_word_files _ _ _ _ Hins) as [Hcases Hok].
  split; [done|]. intros Hh. by apply Hok.
Qed.

Lemma insert_word_all_or_nothing_witness :
  exists ix',
    insert_word (Some "durian") "doc3.txt" (mkIndex scenario_table [true; true; false])
      = Some ix' /\
    ((forall w, files_of (hash_table ix') w = files_of scenario_table w)
     \/ (forall w, files_of (hash_table ix') w
                   = add_doc (Some "durian") "doc3.txt" w (files_of scenario_table w))) /\
    (never_fails [true; true; false] ->
     forall w, files_of (hash_table ix') w
               = add_doc (Some "durian") "doc3.txt" w (files_of scenario_table w)).
Proof.
  apply (insert_word_all_or_nothing (Some "durian") "doc3.txt"
           (mkIndex scenario_table [true; true; false])).
  vm_compute. reflexivity.
Defined.

Lemma chain_ok_words (i : nat) (p p' : list WordEntry) :
  we_word <$> p' = we_word <$> p -> chain_ok i p -> chain_ok i p'.
Proof.
  intros Heq [Hnd Hall]. split; [by rewrite Heq|].
  apply (Forall_fmap we_word
           (fun w => Z.to_nat (hash_str w) = i /\ w <> EmptyString)).
  rewrite Heq. by apply Forall_fmap.
Qed.

Lemma table_shape_init : table_shape hash_table_init.
Proof.
  split; [apply length_replicate|]. intros i p Hp.
  apply lookup_replicate in Hp as [-> _]. split; constructor.
Qed.

Lemma table_shape_insert (tbl : list (list WordEntry)) (idx : nat) (p : list WordEntry) :
  table_shape tbl -> chain_ok idx p -> table_shape (<[idx := p]> tbl).
Proof.
  intros [Hl Hall] Hp. split; [by rewrite length_insert|].
  intros i q Hq. destruct (decide (idx = i)) as [<-|Hne].
  - apply list_lookup_insert_Some in Hq as [(_ & <- & _)|[? _]]; done.
  - rewrite list_lookup_insert_ne in Hq by done. by apply Hall.
Qed.

Lemma insert_word_shape (word : option string) (filename : string) (ix ix' : Index) :
  table_shape (hash_table ix) ->
  insert_word word filename ix = Some ix' ->
  table_shape (hash_table ix').
Proof.
  intros Hsh. destruct word as [[|a w0]|]; [by intros [= <-]| |by intros [= <-]].
  unfold insert_word. set (w := String a w0). set (idx := Z.to_nat (hash_str w)).
  destruct (hash_table ix !! idx) as [p|] eqn:Hp; [|done]. cbn [mbind option_bind].
  pose proof (proj2 Hsh idx p Hp) as Hpok.
  destruct (chain_insert p w filename (heap ix)) as [[p' h']|] eqn:Hci.
  - intros [= <-]. cbn [hash_table]. apply table_shape_insert; [done|].
    eapply chain_ok_words; [|exact Hpok]. by eapply chain_insert_words.
  - apply chain_insert_None, chain_find_None in Hci.
    destruct (malloc (heap ix)) as [[] h1]; cbn [negb]; [|by intros [= <-]].
    destruct (malloc h1) as [[] h2]; cbn [negb]; [|by intros [= <-]].
    destruct (add_file_to_list (mkWordEntry w []) filename h2) as [e' h3] eqn:Hadd.
    intros [= <-]. cbn [hash_table].
    apply add_file_to_list_cases in Hadd as (Hword & _). cbn in Hword.
    apply table_shape_insert; [done|]. destruct Hpok as [Hnd Hall]. split.
    + cbn. rewrite Hword. by apply NoDup_cons.
    + apply Forall_cons. split; [|done]. by rewrite Hword.
Qed.

Lemma insert_all_shape (calls : list (option string * string)) (ix ix' : Index) :
  table_shape (hash_table ix) ->
  insert_all calls ix = Some ix' ->
  table_shape (hash_table ix').
Proof.
  revert ix. induction calls as [|[word d] calls IH]; intros ix Hsh; [by intros [= <-]|].
  cbn [insert_all]. destruct (insert_word word d ix) as [ix1|] eqn:Hins; [|done].
  cbn [mbind option_bind]. apply IH. by eapply insert_word_shape.
Qed.

Lemma chain_find_NoDup (p : list WordEntry) (e : WordEntry) :
  NoDup (we_word <$> p) -> e ∈ p -> chain_find p (we_word e) = Some e.
Proof.
  induction p as [|x p IH]; [by intros _ H%elem_of_nil|].
  cbn. intros [Hx Hnd]%NoDup_cons [->|Hin]%elem_of_cons.
  - by destruct (String.eqb_spec (we_word x) (we_word x)).
  - destruct (String.eqb_spec (we_word x) (we_word e)) as [Heq|_]; [|by apply IH].
    exfalso. apply Hx. rewrite Heq. by apply list_elem_of_fmap_2.
Qed.

(** X7: no entry of the table is lost or shadowed.  After any sequence
    of calls of [insert_word] on the initial table, whatever the
    allocator does, every entry stored in a chain has a non-empty word,
    sits in the bucket of its word's hash and is the entry that
    [find_word_entry] returns for its word; so the table holds at most
    one entry per word. *)
Theorem entries_are_found (calls : list (option string * string)) (h : Heap) :
  exists ix,
    insert_all calls (mkIndex hash_table_init h) = Some ix /\
    forall i p e,
      hash_table ix !! i = Some p -> e ∈ p ->
      we_word e <> EmptyString /\
      i = Z.to_nat (hash_str (we_word e)) /\
      find_word_entry (we_word e) (hash_table ix) = Some (Some e).
Proof.
  destruct (insert_all_defined calls (mkIndex hash_table_init h)) as (ix & Hrun & _);
    [apply length_replicate|].
  exists ix. split; [done|]. intros i p e Hp He.
  pose proof (insert_all_shape calls (mkIndex hash_table_init h) ix table_shape_init Hrun)
    as [_ Hall].
  destruct (Hall i p Hp) as [Hnd Hent]. rewrite Forall_forall in Hent.
  destruct (Hent e He) as [Hi Hne]. split; [done|]. split; [done|].
  unfold find_word_entry. rewrite Hi, Hp. cbn. f_equal. by apply chain_find_NoDup.
Qed.

Lemma insert_all_app (calls1 calls2 : list (option string * string)) (ix : Index) :
  insert_all (calls1 ++ calls2) ix = ix' ← insert_all calls1 ix; insert_all calls2 ix'.
Proof.
  revert ix. induction calls1 as [|[word d] calls1 IH]; intros ix; [done|].
  cbn [app insert_all]. destruct (insert_word word d ix) as [ix1|]; [apply IH|done].
Qed.

Lemma emit_all_insert (displayname : string) (toks : list string) (ix : Index) :
  emit_all (fun w => insert_word (Some w) displayname) toks ix
  = insert_all ((fun t => (Some t, displayname)) <$> toks) ix.
Proof.
  revert ix. induction toks as [|t toks IH]; intros ix; [done|].
  cbn [emit_all insert_all fmap list_fmap].
  destruct (insert_word (Some t) displayname ix) as [ix1|]; [apply IH|done].
Qed.

Lemma index_file_calls (fs : Files) (fullpath displayname : string) (ix : Index) :
  index_file fs fullpath displayname ix
  = insert_all (file_calls fs fullpath displayname) ix.
Proof.
  unfold index_file, file_calls. destruct (fs fullpath) as [content|]; [|done].
  rewrite scan_emit_all. apply emit_all_insert.
Qed.

Lemma index_static_files_calls (fs : Files) (ix : Index) :
  index_static_files fs ix = insert_all (static_calls fs) ix.
Proof.
  unfold index_static_files, static_calls. cbn -[index_file file_calls insert_all].
  rewrite app_nil_r.
  rewrite index_file_calls, insert_all_app.
  destruct (insert_all (file_calls fs "texts/doc1.txt" "doc1.txt") ix) as [ix1|]; [|done].
  cbn [mbind option_bind]. rewrite index_file_calls, insert_all_app.
  destruct (insert_all (file_calls fs "texts/doc2.txt" "doc2.txt") ix1) as [ix2|]; [|done].
  cbn [mbind option_bind]. rewrite index_file_calls.
  by destruct (insert_all (file_calls fs "texts/doc3.txt" "doc3.txt") ix2).
Qed.

Lemma docs_after_elem (calls : list (option string * string)) (w d : string)
    (acc : list string) :
  d ∈ docs_after calls w acc <->
  d ∈ acc \/ (w <> EmptyString /\ (Some w, d) ∈ calls).
Proof.
  revert acc. induction calls as [|[word d0] calls IH]; intros acc; cbn [docs_after].
  - split; [by left|]. intros [?|[_ H]]; [done|]. by apply elem_of_nil in H.
  - rewrite IH, elem_of_cons. clear IH. unfold add_doc. case_decide as Hc.
    + destruct Hc as (Hword & Hw & Hni). rewrite elem_of_cons. split.
      * intros [[Hd|Hin]|[? Hin]]; [|by left|by right; split; [|right]].
        right. split; [done|]. left. congruence.
      * intros [Hin|[? [Heq|Hin]]]; [by left; right| |by right].
        left. left. congruence.
    + split.
      * intros [Hin|[? Hin]]; [by left|by right; split; [|right]].
      * intros [Hin|[? [Heq|Hin]]]; [by left| |by right].
        left. destruct (decide (d ∈ acc)) as [|Hni]; [done|]. exfalso. apply Hc.
        injection Heq as <- <-. done.
Qed.

Lemma docs_after_NoDup (calls : list (option string * string)) (w : string)
    (acc : list string) :
  NoDup acc -> NoDup (docs_after calls w acc).
Proof.
  revert acc. induction calls as [|[word d0] calls IH]; intros acc Hnd; [done|].
  cbn [docs_after]. apply IH. unfold add_doc. case_decide as Hc; [|done].
  apply NoDup_cons. by destruct Hc as (_ & _ & ?).
Qed.

Lemma elem_of_file_calls (fs : Files) (fullpath displayname w d : string) :
  (Some w, d) ∈ file_calls fs fullpath displayname <->
  d = displayname /\ exists content, fs fullpath = Some content /\ w ∈ tokens content.
Proof.
  unfold file_calls. destruct (fs fullpath) as [content|].
  - rewrite list_elem_of_fmap. split.
    + intros (t & [= -> ->] & Hin). split; [done|]. by exists content.
    + intros (-> & c & [= <-] & Hin). by exists w.
  - split; [by intros H%elem_of_nil|]. by intros (_ & c & ? & _).
Qed.

(** X8: what the index holds once the sample files are parsed.  When no
    allocation fails, [index_static_files] is defined, and a name is in
    the list found for a word exactly when it is the display name of a
    sample file that can be opened and whose text has the word among its
    tokens; no name is in a list twice.  A file that cannot be opened
    adds nothing. *)
Theorem documents_of_a_word (fs : Files) (h : Heap) :
  never_fails h ->
  exists ix,
    index_static_files fs (mkIndex hash_table_init h) = Some ix /\
    forall w,
      NoDup (files_of (hash_table ix) w) /\
      forall d,
        d ∈ files_of (hash_table ix) w <->
        exists i fullpath content,
          sample_full_paths !! i = Some fullpath /\
          sample_basenames !! i = Some d /\
          fs fullpath = Some content /\
          w ∈ tokens content.
Proof.
  intros Hh.
  destruct (insert_all_files (static_calls fs) (mkIndex hash_table_init h))
    as (ix & Hrun & _ & Hall); [apply length_replicate|done|].
  exists ix. split; [by rewrite index_static_files_calls|]. intros w.
  rewrite Hall, files_of_init. split; [apply docs_after_NoDup; constructor|].
  intros d. rewrite docs_after_elem.
  assert (forall content, w ∈ tokens content -> w <> EmptyString) as Hne.
  { intros content Hin. pose proof (tokens_from_ok content EmptyString (Forall_nil_2 _)) as Hok.
    rewrite Forall_forall in Hok. by destruct (Hok w Hin). }
  unfold static_calls. cbn -[file_calls]. rewrite !elem_of_app, !elem_of_file_calls.
  split.
  - intros [H%elem_of_nil|[_ Hin]]; [done|].
    destruct Hin as [(-> & c & Hfs & Hw)|[(-> & c & Hfs & Hw)|[(-> & c & Hfs & Hw)|H%elem_of_nil]]];
      [exists 0%nat|exists 1%nat|exists 2%nat|done]; by eexists _, c.
  - intros (i & fullpath & c & Hp & Hd & Hfs & Hw). right. split; [by eapply Hne|].
    destruct i as [|[|[|i]]]; cbn in Hp, Hd; simplify_eq.
    + left. split; [done|]. by exists c.
    + right; left. split; [done|]. by exists c.
    + right; right; left. split; [done|]. by exists c.
Qed.

Lemma documents_of_a_word_witness :
  exists ix,
    index_static_files scenario_files (mkIndex hash_table_init []) = Some ix /\
    forall w,
      NoDup (files_of (hash_table ix) w) /\
      forall d,
        d ∈ files_of (hash_table ix) w <->
        exists i fullpath content,
          sample_full_paths !! i = Some fullpath /\
          sample_basenames !! i = Some d /\
          scenario_files fullpath = Some content /\
          w ∈ tokens content.
Proof.
  apply (documents_of_a_word scenario_files []). constructor.
Defined.

(** ** The cache as a recency list *)

Lemma filter_all {A} (P : A -> Prop) `{forall x, Decision (P x)} (l : list A) :
  Forall P l -> filter P l = l.
Proof.
  induction 1 as [|x l Hx Hl IH]; [done|].
  rewrite filter_cons, decide_True by done. by f_equal.
Qed.

Lemma delete_filter_NoDup {A B} `{EqDecision B} (f : A -> B) (l : list A)
    (k : nat) (x : A) :
  NoDup (f <$> l) -> l !! k = Some x ->
  delete k l = filter (fun y => f y <> f x) l.
Proof.
  revert k. induction l as [|a l IH]; intros k Hnd Hk; [done|].
  rewrite fmap_cons in Hnd. apply NoDup_cons in Hnd as [Ha Hnd].
  destruct k as [|k]; cbn in Hk; cbn [delete list_delete].
  - injection Hk as ->. rewrite filter_cons, decide_False by (intros H; by apply H).
    symmetry. apply filter_all. apply Forall_forall. intros y Hy Heq.
    apply Ha. rewrite <- Heq. by apply list_elem_of_fmap_2.
  - rewrite filter_cons, decide_True.
    + f_equal. by apply IH.
    + intros Heq. apply Ha. rewrite Heq. apply list_elem_of_fmap_2.
      by eapply list_elem_of_lookup_2.
Qed.

Lemma omap_bind_cons (s : CacheSlot) (l : list CacheSlot) (v : string) :
  slot_word s = Some v ->
  omap bind_of (s :: l) = (v, slot_files s) :: omap bind_of l.
Proof. intros Hs. cbn [omap list_omap]. unfold bind_of at 1. by rewrite Hs. Qed.

Lemma omap_bind_filter (w : string) (l : list CacheSlot) :
  Forall (fun s => is_Some (slot_word s)) l ->
  omap bind_of (filter (fun s => slot_word s <> Some w) l)
  = lru_without w (omap bind_of l).
Proof.
  unfold lru_without. induction 1 as [|s l [v Hs] _ IH]; [done|].
  rewrite (omap_bind_cons _ _ _ Hs), !filter_cons. cbn [fst].
  destruct (decide (v = w)) as [->|Hne].
  - rewrite decide_False by (intros H; by apply H).
    rewrite decide_False by (intros H; by apply H). exact IH.
  - rewrite decide_True by congruence. rewrite decide_True by done.
    rewrite (omap_bind_cons _ _ _ Hs). by f_equal.
Qed.

Lemma omap_bind_take (n : nat) (l : list CacheSlot) :
  Forall (fun s => is_Some (slot_word s)) l ->
  omap bind_of (take n l) = take n (omap bind_of l).
Proof.
  intros Hl. revert n. induction Hl as [|s l [v Hs] _ IH]; intros [|n]; try done.
  cbn [take]. rewrite !(omap_bind_cons _ _ _ Hs). cbn [take]. f_equal. apply IH.
Qed.

Lemma omap_bind_length (l : list CacheSlot) :
  Forall (fun s => is_Some (slot_word s)) l -> length (omap bind_of l) = length l.
Proof.
  induction 1 as [|s l [v Hs] _ IH]; [done|].
  rewrite (omap_bind_cons _ _ _ Hs). cbn [length]. by f_equal.
Qed.

Lemma list_find_bind (w : string) (l : list CacheSlot) :
  Forall (fun s => is_Some (slot_word s)) l ->
  list_find (fun b => b.1 = w) (omap bind_of l)
  = prod_map id (fun s => (w, slot_files s)) <$> list_find (holds w) l.
Proof.
  induction 1 as [|s l [v Hs] _ IH]; [done|].
  rewrite (omap_bind_cons _ _ _ Hs). cbn [list_find fst]. unfold holds at 1.
  destruct (decide (v = w)) as [->|Hne].
  - by rewrite decide_True.
  - rewrite decide_False by congruence.
    rewrite IH. by destruct (list_find (holds w) l) as [[k x]|].
Qed.

(** One call of [cache_get] on the bindings. *)
Lemma cache_get_cached (w : string) (c : Cache) :
  cache_inv c ->
  exists c',
    cache_get w c = Some ((lru_get w (cached c)).1, c') /\ cache_inv c' /\
    cached c' = (lru_get w (cached c)).2.
Proof.
  intros Hinv. pose proof Hinv as [Hwf Hnd _].
  destruct (cache_get_inv w c Hinv) as (r & c' & Hget & Hinv' & _).
  destruct (cache_get_live w c Hwf) as (r0 & c0 & Hget0 & _ & _ & Hlive).
  rewrite Hget in Hget0. injection Hget0 as <- <-.
  exists c'. unfold lru_get, cached.
  rewrite list_find_bind by apply Hwf.
  destruct (list_find (holds w) (live c)) as [[k s]|] eqn:Hf; cbn.
  - destruct Hlive as [-> Hlive]. rewrite Hget. split; [done|]. split; [done|].
    apply list_find_Some in Hf as (Hk & Hs & _).
    rewrite Hlive, (omap_bind_cons _ _ _ Hs). f_equal.
    rewrite (delete_filter_NoDup slot_word _ _ _ Hnd Hk), Hs.
    apply omap_bind_filter, Hwf.
  - destruct Hlive as [-> ->]. by rewrite Hget.
Qed.

(** One effective call of [cache_put] on the bindings. *)
Lemma cache_put_cached (w f : string) (fl : list string) (c : Cache) :
  cache_inv c ->
  exists c',
    cache_put (Some w) (f :: fl) c = Some c' /\ cache_inv c' /\
    cached c' = lru_put w (f :: fl) (cached c).
Proof.
  intros Hinv. pose proof Hinv as [Hwf Hnd _].
  destruct (cache_put_inv w f fl c Hinv) as (c' & Hput & Hinv' & _).
  destruct (cache_put_live w f fl c Hwf) as (c0 & Hput0 & _ & Hlive).
  rewrite Hput in Hput0. injection Hput0 as <-.
  exists c'. split; [done|]. split; [done|]. unfold lru_put, cached.
  destruct (list_find (holds w) (live c)) as [[k s]|] eqn:Hf.
  - destruct Hlive as [Hlive _]. apply list_find_Some in Hf as (Hk & Hs & _).
    assert (omap bind_of (delete k (live c)) = lru_without w (omap bind_of (live c))) as Heq.
    { rewrite (delete_filter_NoDup slot_word _ _ _ Hnd Hk), Hs.
      apply omap_bind_filter, Hwf. }
    assert (length (omap bind_of (delete k (live c))) < CAP)%nat as Hlen.
    { rewrite omap_bind_length by apply Forall_delete, Hwf.
      rewrite length_delete by (by eexists). rewrite length_live by done.
      apply lookup_lt_Some in Hk. rewrite length_live in Hk by done.
      destruct Hwf as [_ Hc _]. unfold CAP, CACHE_CAP in *. lia. }
    rewrite Hlive, (omap_bind_cons _ _ w) by done. cbn [slot_files].
    rewrite Heq in Hlen |- *. symmetry. apply take_ge. cbn [length]. lia.
  - destruct Hlive as [Hlive _]. apply find_None_words in Hf.
    rewrite Hlive, omap_bind_take.
    2:{ apply Forall_cons. split; [by eexists|apply Hwf]. }
    rewrite (omap_bind_cons _ _ w) by done. cbn [slot_files]. do 2 f_equal.
    rewrite <- omap_bind_filter by apply Hwf. f_equal. symmetry. apply filter_all.
    apply Forall_forall. intros s Hs Heq. apply Hf. rewrite <- Heq.
    by apply list_elem_of_fmap_2.
Qed.


Lemma cache_step_cached (op : cache_op) (c : Cache) :
  cache_inv c ->
  exists c', cache_step op c = Some c' /\ cache_inv c' /\
             cached c' = lru_step op (cached c).
Proof.
  intros Hinv. destruct op as [w|[w|] [|f fl]]; cbn [cache_step lru_step];
    try (exists c; by rewrite ?cache_put_noop by auto).
  - destruct (cache_get_cached w c Hinv) as (c' & -> & Hinv' & Hc). by exists c'.
  - destruct (cache_put_cached w f fl c Hinv) as (c' & -> & Hinv' & Hc). by exists c'.
Qed.

Lemma cache_run_cached (ops : list cache_op) (c : Cache) :
  cache_inv c ->
  exists c', cache_run ops c = Some c' /\ cache_inv c' /\
             cached c' = lru_run ops (cached c).
Proof.
  revert c. induction ops as [|op ops IH]; intros c Hinv; [by exists c|].
  destruct (cache_step_cached op c Hinv) as (c1 & Hstep & Hinv1 & Hc1).
  destruct (IH c1 Hinv1) as (c' & Hrun & Hinv' & Hc').
  exists c'. cbn [cache_run]. rewrite Hstep. cbn [mbind option_bind].
  split; [done|]. split; [done|]. rewrite Hc', Hc1. done.
Qed.

(** X9: the array code is a recency list.  After any sequence of calls
    of [cache_get] and [cache_put] on the initial cache, the bindings of
    the occupied slots, front first, are those of the list model run on
    the same calls (a hit moves the binding to the front, a put with a
    word and a non-null list puts the binding in front in place of the
    word's old one and cuts the list to [CACHE_CAP], any other put does
    nothing); [cache_count] is their number; and [cache_get] returns
    what the model returns. *)
Theorem cache_is_recency_list (ops : list cache_op) :
  exists c,
    cache_run ops cache_init = Some c /\
    cached c = lru_run ops [] /\
    cache_count c = Z.of_nat (length (cached c)) /\
    forall w, exists c',
      cache_get w c = Some ((lru_get w (cached c)).1, c') /\
      cached c' = (lru_get w (cached c)).2.
Proof.
  destruct (cache_run_cached ops cache_init cache_inv_init) as (c & Hrun & Hinv & Hc).
  exists c. split; [done|]. split; [done|]. split.
  - unfold cached. rewrite omap_bind_length by apply Hinv.
    rewrite length_live by apply Hinv. destruct Hinv as [[_ ? _] _ _]. lia.
  - intros w. destruct (cache_get_cached w c Hinv) as (c' & Hget & _ & Hc').
    by exists c'.
Qed.

(** X10: a put is read back.  After any calls, a [cache_put] of a word
    with a non-null list followed by [cache_get] of the word returns
    that list and leaves the cache exactly as the put left it. *)
Theorem put_then_get (ops : list cache_op) (w f : string) (fl : list string) :
  exists c,
    cache_run (ops ++ [Put (Some w) (f :: fl)]) cache_init = Some c /\
    cache_get w c = Some (f :: fl, c).
Proof.
  destruct (cache_run_inv ops cache_init cache_inv_init) as (c0 & Hrun & Hinv0).
  destruct (cache_put_inv w f fl c0 Hinv0) as (c & Hput & Hinv & Hhead & _).
  exists c. rewrite cache_run_app, Hrun. cbn [mbind option_bind cache_run cache_step].
  rewrite Hput. split; [done|].
  assert (list_find (holds w) (live c) = Some (0%nat, mkCacheSlot (Some w) (f :: fl))) as Hf.
  { destruct (live c) as [|s l]; [done|]. injection Hhead as ->. cbn.
    by rewrite decide_True. }
  rewrite (cache_get_hit w c 0 _ (inv_wf c Hinv) Hf). cbn [slot_files]. do 2 f_equal.
  destruct (find_live _ _ _ _ Hf) as (_ & Hs & _).
  destruct c as [slots count]. cbn in Hs |- *. f_equal.
  destruct slots as [|s0 slots]; [done|]. by injection Hs as ->.
Qed.

(** ** Lines in, lines out: the query loop *)

Lemma strlen_cons (ch : ascii) (s : string) : strlen (String ch s) = strlen s + 1.
Proof. unfold strlen. cbn [String.length]. lia. Qed.

Lemma strlen_nonneg (s : string) : 0 <= strlen s.
Proof. unfold strlen. lia. Qed.

Lemma strlen_zero (s : string) : strlen s <= 0 -> s = EmptyString.
Proof. destruct s; [done|]. rewrite strlen_cons. pose proof (strlen_nonneg s). lia. Qed.

Lemma string_app_cons (a : ascii) (s t : string) :
  String a s +:+ t = String a (s +:+ t).
Proof. reflexivity. Qed.

Lemma string_app_nil_r (s : string) : s +:+ EmptyString = s.
Proof. induction s as [|a s IH]; [done|]. by rewrite string_app_cons, IH. Qed.

Lemma string_app_assoc (a b c : string) : (a +:+ b) +:+ c = a +:+ b +:+ c.
Proof. induction a as [|x a IH]; [done|]. by rewrite !string_app_cons, IH. Qed.

Lemma print_files_from_format (name : string) (next : list string) (count : Z) :
  0 <= count ->
  (print_files_from (name :: next) count).1
  = (if count =? 0 then "found in: " else EmptyString)
    +:+ String.concat " " (name :: next) +:+ nl.
Proof.
  revert name count. induction next as [|n2 rest IH]; intros name count Hc.
  - cbn. by rewrite string_app_nil_r.
  - specialize (IH n2 (count + 1) ltac:(lia)).
    cbn [print_files_from] in IH |- *.
    destruct (print_files_from rest (count + 1 + 1)) as [out count'].
    cbn [fst] in IH |- *. rewrite IH.
    destruct (Z.eqb_spec (count + 1) 0) as [?|_]; [lia|].
    change (String.concat " " (name :: n2 :: rest))
      with (name +:+ " " +:+ String.concat " " (n2 :: rest)).
    by rewrite !string_app_assoc.
Qed.

Lemma print_files_cons (f : string) (fl : list string) :
  print_files (f :: fl) = "found in: " +:+ String.concat " " (f :: fl) +:+ nl.
Proof.
  unfold print_files.
  pose proof (print_files_from_format f fl 0 ltac:(lia)) as Hfmt.
  pose proof (print_files_from_count (f :: fl) 0) as Hcnt.
  destruct (print_files_from (f :: fl) 0) as [out count]. cbn [fst snd] in *.
  destruct (Z.eqb_spec count 0) as [Hz|_]; [cbn [length] in Hcnt; lia|]. exact Hfmt.
Qed.

(** X11: the result line.  For a non-null list [print_files] prints
    "found in: ", the names in the order of the list with one space
    between them, and a newline; for the null list it prints
    "not found". *)
Theorem print_files_format :
  print_files [] = "not found" +:+ nl /\
  forall f fl, print_files (f :: fl) = "found in: " +:+ String.concat " " (f :: fl) +:+ nl.
Proof. split; [done|]. apply print_files_cons. Qed.

Lemma files_of_found (tbl : list (list WordEntry)) (w : string) (r : list string) :
  find_word_entry w tbl = Some (Some (mkWordEntry w r)) -> files_of tbl w = r.
Proof. intros H. unfold files_of. by rewrite H. Qed.

Lemma files_of_not_indexed (tbl : list (list WordEntry)) (w : string) :
  ~ indexed tbl w -> files_of tbl w = [].
Proof.
  intros Hni. unfold files_of. destruct (find_word_entry w tbl) as [[e|]|] eqn:Hf; try done.
  destruct (we_files e) as [|f fl] eqn:He; [done|]. exfalso. apply Hni.
  exists e. by rewrite He.
Qed.

Lemma cached_words_fst (c : Cache) : cached_words c = (cached c).*1.
Proof.
  unfold cached_words, cached. induction (live c) as [|s l IH]; [done|].
  cbn [omap list_omap]. unfold bind_of at 1.
  destruct (slot_word s) as [w|]; cbn; [by f_equal|done].
Qed.

Lemma lru_without_absent (w : string) (l : list (string * list string)) :
  w ∉ l.*1 -> lru_without w l = l.
Proof.
  intros Hni. apply filter_all, Forall_forall. intros b Hb Heq. apply Hni.
  rewrite <- Heq. by apply list_elem_of_fmap_2.
Qed.

(** What [main] does with a line, on a cache that is coherent with the
    index: the output, and the bindings afterwards. *)
Lemma serve_answer (tbl : list (list WordEntry)) (c : Cache) (line : string) :
  length tbl = Z.to_nat HASH_SIZE -> cache_inv c -> coherent tbl c ->
  exists c',
    serve line tbl c = Some (c', answer tbl (cached_words c) line) /\
    cache_inv c' /\ coherent tbl c' /\
    (files_of tbl (normalize_word_inplace line) = [] -> c' = c) /\
    cached c' = (if decide (normalize_word_inplace line = EmptyString) then cached c
                 else lru_lookup tbl (normalize_word_inplace line) (cached c)).
Proof.
  intros Hl Hinv Hco. unfold serve, answer.
  set (w := normalize_word_inplace line).
  destruct (decide (w = EmptyString)) as [->|Hw]; [by exists c|].
  destruct (lookup_with_cache_spec tbl Hl w c Hinv) as (r & c' & out & Hlook & Hinv' & Hcase).
  destruct (lookup_coherent tbl Hl w c c' r out Hinv Hco Hlook) as [Hco' Hr].
  exists c'. rewrite Hlook. cbn [mbind option_bind].
  destruct w as [|a w0] eqn:Ew; [done|]. rewrite <- Ew in *.
  unfold lru_lookup. rewrite <- cached_words_fst.
  destruct Hcase as [(Hin & -> & Hne & _ & Hget & _)
                    |[(Hni & -> & Hne & _ & _ & Hlive)|(Hni' & -> & -> & -> & Hni)]].
  - rewrite (files_of_found _ _ _ (Hr Hne)). destruct r as [|f fl]; [done|].
    rewrite !decide_True by done. rewrite print_files_cons.
    split; [done|]. split; [done|]. split; [done|]. split; [done|].
    destruct (cache_get_cached w c Hinv) as (c0 & Hget0 & _ & Hc0).
    rewrite Hget in Hget0. by injection Hget0 as _ <-.
  - rewrite (files_of_found _ _ _ (Hr Hne)). destruct r as [|f fl]; [done|].
    rewrite !decide_False by done. rewrite print_files_cons.
    split; [done|]. split; [done|]. split; [done|]. split; [done|].
    unfold cached, lru_put. rewrite Hlive, omap_bind_take.
    2:{ apply Forall_cons. split; [by eexists|apply Hinv]. }
    rewrite (omap_bind_cons _ _ w) by done. cbn [slot_files].
    rewrite lru_without_absent; [done|]. fold (cached c). by rewrite <- cached_words_fst.
  - rewrite (files_of_not_indexed _ _ Hni). rewrite decide_False by done. done.
Qed.

(** X12: what a query prints.  After any sequence of lookups, [main]
    answers a line with the diagnostic when the line has no letter or
    digit, with "not found" when the index has no list for the
    normalized word, and otherwise with one provenance line ("from
    cache" when the word is cached, "from hash table" when not) and
    "found in: " with the names the index has for the word; a line that
    finds nothing leaves the cache as it was. *)
Theorem query_answer (tbl : list (list WordEntry)) (qs : list string) (line : string) :
  Z.of_nat (length tbl) = HASH_SIZE ->
  exists steps c c',
    lookups tbl qs cache_init = Some (steps, c) /\
    serve line tbl c = Some (c', answer tbl (cached_words c) line) /\
    (files_of tbl (normalize_word_inplace line) = [] -> c' = c).
Proof.
  intros Hl. assert (length tbl = Z.to_nat HASH_SIZE) as Hl' by lia.
  destruct (lookups_cached tbl Hl' qs cache_init cache_inv_init)
    as (steps & c & Hrun & Hinv & _).
  pose proof (lookups_coherent tbl Hl' qs _ _ _ cache_inv_init (coherent_init tbl) Hrun) as Hco.
  destruct (serve_answer tbl c line Hl' Hinv Hco) as (c' & Hserve & _ & _ & Hsame & _).
  by exists steps, c, c'.
Qed.

Lemma query_answer_witness :
  exists steps c c',
    lookups scenario_table ["cherry"; "banana"] cache_init = Some (steps, c) /\
    serve "Banana?" scenario_table c
      = Some (c', answer scenario_table (cached_words c) "Banana?") /\
    (files_of scenario_table (normalize_word_inplace "Banana?") = [] -> c' = c).
Proof.
  apply (query_answer scenario_table ["cherry"; "banana"] "Banana?").
  vm_compute. reflexivity.
Defined.

Lemma main_loop_session (stdin : list string) (tbl : list (list WordEntry)) (c : Cache) :
  length tbl = Z.to_nat HASH_SIZE -> cache_inv c -> coherent tbl c ->
  main_loop stdin tbl c = Some (session tbl (cached c) stdin).
Proof.
  intros Hl. revert c. induction stdin as [|line rest IH]; intros c Hinv Hco; [done|].
  cbn [main_loop session].
  destruct (Z.eqb_spec (strlen (strip_newline line)) 0) as [Hz|Hnz].
  { rewrite decide_True; [done|]. apply strlen_zero. lia. }
  rewrite decide_False by (intros Heq; by rewrite Heq in Hnz).
  destruct (serve_answer tbl c (strip_newline line) Hl Hinv Hco)
    as (c' & -> & Hinv' & Hco' & _ & Hc').
  cbn [mbind option_bind]. rewrite (IH c' Hinv' Hco'), Hc', cached_words_fst. done.
Qed.

(** X13: the whole output of the program.  Whatever the files, the
    lines read and the outcomes of the allocations, [main] is defined
    (no array is left, no null word compared): it builds a table and
    prints the two banner lines followed by the session of the list
    model on that table, from the empty cache: a prompt before each
    line, the answer to each line up to the first empty one, and a last
    prompt. *)
Theorem main_output (fs : Files) (stdin : list string) (h : Heap) :
  exists ix,
    index_static_files fs (mkIndex hash_table_init h) = Some ix /\
    main fs stdin h
    = Some ("indexed files from ./texts (doc1.txt, doc2.txt, doc3.txt)" +:+ nl
            +:+ "type a word to search (empty line to quit)" +:+ nl
            +:+ session (hash_table ix) [] stdin).
Proof.
  unfold main. rewrite index_static_files_calls.
  destruct (insert_all_defined (static_calls fs) (mkIndex hash_table_init h))
    as (ix & -> & Hl); [apply length_replicate|].
  exists ix. split; [done|]. cbn [mbind option_bind].
  by rewrite (main_loop_session stdin (hash_table ix) cache_init Hl cache_inv_init
                (coherent_init _)).
Qed.

(** X14: an empty line ends the session like the end of the input.
    When a line is empty once its newline is stripped, the output of the
    loop of [main] is the same as if the input ended before that line:
    the line and everything after it is ignored. *)
Theorem empty_line_ends_session (pre rest : list string) (line : string)
    (tbl : list (list WordEntry)) (c : Cache) :
  strip_newline line = EmptyString ->
  main_loop (pre ++ line :: rest) tbl c = main_loop pre tbl c.
Proof.
  intros Hline. revert c. induction pre as [|l pre IH]; intros c.
  - cbn [app main_loop]. by rewrite Hline.
  - cbn [app main_loop]. destruct (strlen (strip_newline l) =? 0); [done|].
    destruct (serve (strip_newline l) tbl c) as [[c' out]|]; [|done].
    cbn [mbind option_bind]. by rewrite IH.
Qed.

Lemma empty_line_ends_session_witness :
  main_loop (["banana" +:+ nl] ++ nl :: ["apple" +:+ nl]) scenario_table cache_init
  = main_loop ["banana" +:+ nl] scenario_table cache_init.
Proof.
  apply (empty_line_ends_session ["banana" +:+ nl] ["apple" +:+ nl] nl
           scenario_table cache_init).
  reflexivity.
Defined.

Lemma hash_step (h c : Z) :
  ulong (ulong (ulong (Z.shiftl (ulong h) 5) + ulong h) + c) = ulong (h * 33 + c).
Proof.
  unfold ulong. rewrite Z.shiftl_mul_pow2 by lia.
  change (2 ^ 5) with 32. change (2 ^ ULONG_WIDTH) with (2 ^ 64).
  set (M := 2 ^ 64). assert (M <> 0) as HM by (unfold M; lia).
  set (x := h mod M).
  rewrite (Z.add_mod_idemp_l (x * 32) x M HM).
  rewrite (Z.add_mod_idemp_l (x * 32 + x) c M HM).
  replace (x * 32 + x + c) with (x * 33 + c) by lia.
  rewrite <- (Z.add_mod_idemp_l (x * 33) c M HM). unfold x.
  rewrite (Z.mul_mod_idemp_l h 33 M HM).
  by rewrite (Z.add_mod_idemp_l (h * 33) c M HM).
Qed.

Lemma hash_loop_djb2 (s : string) (h : Z) :
  hash_loop s (ulong h) = ulong (djb2 s h).
Proof.
  revert h. induction s as [|c s IH]; intros h; [done|].
  cbn [hash_loop djb2]. rewrite hash_step. apply IH.
Qed.

(** X15: [hash_str] is djb2.  The shift, the two additions and the
    wrap-around of [unsigned long] compute [h * 33 + c] modulo
    [2 ^ 64], so the bucket of a string is its textbook djb2 value from
    5381, reduced modulo [2 ^ 64] and then modulo [HASH_SIZE]. *)
Theorem hash_str_is_djb2 (s : string) :
  hash_str s = (djb2 s 5381 mod 2 ^ 64) mod HASH_SIZE.
Proof.
  unfold hash_str. change 5381 with (ulong 5381) at 1. by rewrite hash_loop_djb2.
Qed.

Lemma tokens_from_nil (buf : string) :
  tokens_from EmptyString buf = if 0 <? strlen buf then [buf] else [].
Proof. unfold tokens_from. cbn [scan]. by destruct (0 <? strlen buf). Qed.

Lemma tokens_from_cons (ch : ascii) (rest buf : string) :
  tokens_from (String ch rest) buf
  = if isalnum ch then
      if strlen buf <? 256 - 1
      then tokens_from rest (buf +:+ String (tolower ch) EmptyString)
      else tokens_from rest buf
    else if 0 <? strlen buf then buf :: tokens_from rest EmptyString
    else tokens_from rest buf.
Proof.
  unfold tokens_from at 1. cbn [scan]. destruct (isalnum ch).
  - by destruct (strlen buf <? 256 - 1).
  - destruct (0 <? strlen buf); [|done].
    cbn [mbind option_bind]. by rewrite scan_log.
Qed.

Lemma concat_nil_cons (x : string) (l : list string) :
  String.concat EmptyString (x :: l) = x +:+ String.concat EmptyString l.
Proof. destruct l as [|y l]; [by rewrite string_app_nil_r|done]. Qed.

Lemma normalize_tokens_from (s buf : string) :
  strlen buf + strlen s <= 255 ->
  buf +:+ normalize_word_inplace s = String.concat EmptyString (tokens_from s buf).
Proof.
  revert buf. induction s as [|ch rest IH]; intros buf Hlen.
  - rewrite tokens_from_nil. cbn [normalize_word_inplace]. rewrite string_app_nil_r.
    destruct (Z.ltb_spec 0 (strlen buf)); [done|]. by apply strlen_zero.
  - rewrite strlen_cons in Hlen. pose proof (strlen_nonneg rest).
    rewrite tokens_from_cons. cbn [normalize_word_inplace]. destruct (isalnum ch).
    + destruct (Z.ltb_spec (strlen buf) (256 - 1)); [|lia].
      rewrite <- IH by (rewrite strlen_snoc; lia). by rewrite string_app_assoc.
    + destruct (Z.ltb_spec 0 (strlen buf)).
      * rewrite concat_nil_cons. f_equal. rewrite <- (IH EmptyString); [done|].
        change (strlen EmptyString) with 0. lia.
      * by apply IH; lia.
Qed.

Lemma normalize_token_chars (s : string) :
  Forall token_char (list_ascii_of_string (normalize_word_inplace s)).
Proof.
  induction s as [|ch s IH]; [constructor|]. cbn [normalize_word_inplace].
  destruct (isalnum ch) eqn:E; [|done]. cbn. apply Forall_cons.
  split; [by apply tolower_token_char|done].
Qed.

Lemma normalize_fixed (t : string) :
  Forall token_char (list_ascii_of_string t) -> normalize_word_inplace t = t.
Proof.
  induction t as [|ch t IH]; [done|]. cbn. intros [[Ha Hl] Ht]%Forall_cons.
  rewrite Ha, Hl. f_equal. by apply IH.
Qed.

(** X16: what [normalize_word_inplace] leaves of a line.  The result
    holds only letters that are not upper case and digits; it is never
    longer than the line, so writing it over the line stays inside the
    buffer; normalizing it again changes nothing; and for a line of at
    most 255 characters, as [fgets] delivers, it is the concatenation of
    the tokens that [index_file] would cut from the same text: a query
    of several words is looked up as one word. *)
Theorem normalize_word_inplace_spec (s : string) :
  Forall token_char (list_ascii_of_string (normalize_word_inplace s)) /\
  strlen (normalize_word_inplace s) <= strlen s /\
  normalize_word_inplace (normalize_word_inplace s) = normalize_word_inplace s /\
  (strlen s <= 255 ->
   normalize_word_inplace s = String.concat EmptyString (tokens s)).
Proof.
  split; [apply normalize_token_chars|]. split; [|split].
  - induction s as [|ch s IH]; [done|]. cbn [normalize_word_inplace].
    destruct (isalnum ch); rewrite !strlen_cons; lia.
  - apply normalize_fixed, normalize_token_chars.
  - intros Hlen. apply (normalize_tokens_from s EmptyString).
    change (strlen EmptyString) with 0. lia.
Qed.

Lemma normalize_word_inplace_spec_witness :
  normalize_word_inplace "Foo-Bar 42!" = String.concat EmptyString (tokens "Foo-Bar 42!").
Proof.
  apply (proj2 (proj2 (proj2 (normalize_word_inplace_spec "Foo-Bar 42!")))).
  vm_compute. discriminate.
Defined.

Lemma string_length_snoc (s : string) (c : ascii) :
  String.length (s +:+ String c EmptyString) = S (String.length s).
Proof.
  induction s as [|a s IH]; [done|]. rewrite string_app_cons. cbn [String.length].
  by rewrite IH.
Qed.

Lemma string_get_snoc (s : string) (c : ascii) :
  String.get (String.length s) (s +:+ String c EmptyString) = Some c.
Proof. induction s as [|a s IH]; [done|]. rewrite string_app_cons. exact IH. Qed.

Lemma string_substring_snoc (s t : string) :
  String.substring 0 (String.length s) (s +:+ t) = s.
Proof.
  induction s as [|a s IH]; [by destruct t|]. rewrite string_app_cons.
  cbn [String.length String.substring]. by rewrite IH.
Qed.

Lemma string_snoc_cases (line : string) :
  line = EmptyString \/ exists s c, line = s +:+ String c EmptyString.
Proof.
  induction line as [|a line IH]; [by left|]. right.
  destruct IH as [->|(s & c & ->)]; [by exists EmptyString, a|].
  by exists (String a s), c.
Qed.

Lemma strip_newline_snoc (s : string) (c : ascii) :
  strip_newline (s +:+ String c EmptyString)
  = if Ascii.eqb c (ascii_of_nat 10) || Ascii.eqb c (ascii_of_nat 13) then s
    else s +:+ String c EmptyString.
Proof.
  unfold strip_newline. rewrite string_length_snoc.
  replace (S (String.length s) - 1)%nat with (String.length s) by lia.
  rewrite string_get_snoc, string_substring_snoc.
  unfold strlen. rewrite string_length_snoc.
  destruct (Z.ltb_spec 0 (Z.of_nat (S (String.length s)))) as [_|?]; [done|lia].
Qed.

Lemma normalize_app (a b : string) :
  normalize_word_inplace (a +:+ b) = normalize_word_inplace a +:+ normalize_word_inplace b.
Proof.
  induction a as [|ch a IH]; [done|]. rewrite string_app_cons.
  cbn [normalize_word_inplace]. destruct (isalnum ch); [|done].
  by rewrite string_app_cons, IH.
Qed.

(** X17: what [main] strips from a line.  Exactly one character goes,
    and only when the last character is a line feed or a carriage
    return; so of a line that ends in carriage return and line feed the
    carriage return stays, and such a line is not the empty line that
    ends the session.  Stripping never changes the word that is looked
    up. *)
Theorem strip_newline_spec :
  strip_newline EmptyString = EmptyString /\
  (forall s c,
      strip_newline (s +:+ String c EmptyString)
      = if Ascii.eqb c (ascii_of_nat 10) || Ascii.eqb c (ascii_of_nat 13) then s
        else s +:+ String c EmptyString) /\
  (forall s, strip_newline (s +:+ cr +:+ nl) = s +:+ cr) /\
  (forall line,
      normalize_word_inplace (strip_newline line) = normalize_word_inplace line).
Proof.
  split; [done|]. split; [apply strip_newline_snoc|]. split.
  - intros s. rewrite <- string_app_assoc. unfold nl at 1. by rewrite strip_newline_snoc.
  - intros line. destruct (string_snoc_cases line) as [->|(s & c & ->)]; [done|].
    rewrite strip_newline_snoc.
    destruct (Ascii.eqb_spec c (ascii_of_nat 10)) as [->|_].
    { rewrite normalize_app. cbn. by rewrite string_app_nil_r. }
    destruct (Ascii.eqb_spec c (ascii_of_nat 13)) as [->|_]; [|done].
    rewrite normalize_app. cbn. by rewrite string_app_nil_r.
Qed.

Lemma tokens_from_app (a b : string) (c : ascii) (buf : string) :
  isalnum c = false ->
  tokens_from (a +:+ String c b) buf = tokens_from a buf ++ tokens_from b EmptyString.
Proof.
  intros Hc. revert buf. induction a as [|ch a IH]; intros buf.
  - change (EmptyString +:+ String c b) with (String c b).
    rewrite tokens_from_cons, tokens_from_nil, Hc.
    destruct (Z.ltb_spec 0 (strlen buf)); [done|]. by rewrite (strlen_zero buf).
  - rewrite string_app_cons, !tokens_from_cons. destruct (isalnum ch).
    + destruct (strlen buf <? 256 - 1); apply IH.
    + destruct (0 <? strlen buf); [|apply IH]. cbn [app]. f_equal. apply IH.
Qed.

Lemma tokens_from_run (r buf : string) :
  alnum_only r -> 0 < strlen buf + strlen r <= 255 ->
  tokens_from r buf = [buf +:+ lowercase r].
Proof.
  unfold alnum_only. revert buf. induction r as [|ch r IH]; intros buf Hr Hlen.
  - rewrite tokens_from_nil. change (strlen EmptyString) with 0 in Hlen.
    destruct (Z.ltb_spec 0 (strlen buf)); [|lia]. cbn [lowercase].
    by rewrite string_app_nil_r.
  - cbn in Hr. apply Forall_cons in Hr as [Hch Hr]. rewrite strlen_cons in Hlen.
    pose proof (strlen_nonneg r). pose proof (strlen_nonneg buf).
    rewrite tokens_from_cons, Hch. destruct (Z.ltb_spec (strlen buf) (256 - 1)); [|lia].
    rewrite IH by (done || rewrite strlen_snoc; lia).
    cbn [lowercase]. by rewrite string_app_assoc.
Qed.

(** X18: how the tokens of a text compose.  A character that is neither
    letter nor digit cuts the text: the tokens of the whole are those of
    the part before it followed by those of the part after it.  A text
    of 1 to 255 letters and digits is one token, itself in lower
    case. *)
Theorem tokens_compose :
  (forall a b c, isalnum c = false ->
     tokens (a +:+ String c b) = tokens a ++ tokens b) /\
  (forall r, alnum_only r -> 0 < strlen r <= 255 -> tokens r = [lowercase r]).
Proof.
  split.
  - intros a b c Hc. by apply tokens_from_app.
  - intros r Hr Hlen. apply (tokens_from_run r EmptyString Hr).
    by change (strlen EmptyString) with 0.
Qed.

Lemma tokens_compose_witness :
  tokens ("Hello" +:+ String "," " World") = tokens "Hello" ++ tokens " World" /\
  tokens "Hello" = [lowercase "Hello"].
Proof.
  split.
  - apply (proj1 tokens_compose "Hello" " World" ","%char). reflexivity.
  - apply (proj2 tokens_compose "Hello").
    + repeat constructor.
    + vm_compute. split; [reflexivity|discriminate].
Defined.

Lemma docs_after_app (calls1 calls2 : list (option string * string)) (w : string)
    (acc : list string) :
  docs_after (calls1 ++ calls2) w acc = docs_after calls2 w (docs_after calls1 w acc).
Proof.
  revert acc. induction calls1 as [|[word d] calls1 IH]; intros acc; [done|]. apply IH.
Qed.

Lemma docs_after_known (calls : list (option string * string)) (w : string)
    (acc : list string) :
  (forall d, (Some w, d) ∈ calls -> d ∈ acc) -> docs_after calls w acc = acc.
Proof.
  revert acc. induction calls as [|[word d] calls IH]; intros acc Hin; [done|].
  cbn [docs_after]. assert (add_doc word d w acc = acc) as ->.
  { unfold add_doc. case_decide as Hc; [|done]. destruct Hc as (-> & _ & Hni).
    exfalso. apply Hni, Hin, list_elem_of_here. }
  apply IH. intros d' Hd'. apply Hin. by apply list_elem_of_further.
Qed.

(** X19: parsing a file again changes nothing.  When no allocation
    fails, [index_file] on a file that was just parsed under the same
    name leaves the list of every word as it was: a word that occurs
    many times in a text, or a text parsed twice, is listed once. *)
Theorem reindexing_changes_nothing
    (fs : Files) (fullpath displayname : string) (ix : Index) :
  Z.of_nat (length (hash_table ix)) = HASH_SIZE ->
  never_fails (heap ix) ->
  exists ix1 ix2,
    index_file fs fullpath displayname ix = Some ix1 /\
    index_file fs fullpath displayname ix1 = Some ix2 /\
    forall w, files_of (hash_table ix2) w = files_of (hash_table ix1) w.
Proof.
  intros Hl Hh. rewrite index_file_calls.
  set (calls := file_calls fs fullpath displayname).
  destruct (insert_all_files calls ix) as (ix1 & Hrun1 & Hh1 & Hall1); [lia|done|].
  destruct (insert_all_defined calls ix) as (ix1' & Hrun1' & Hl1); [lia|].
  assert (ix1' = ix1) as -> by congruence.
  destruct (insert_all_files calls ix1 Hl1 Hh1) as (ix2 & Hrun2 & _ & Hall2).
  exists ix1, ix2. split; [done|]. rewrite index_file_calls. split; [done|].
  intros w. rewrite Hall2. apply docs_after_known. intros d Hd.
  rewrite Hall1. apply docs_after_elem. right. split; [|done].
  apply elem_of_file_calls in Hd as (_ & content & _ & Hw).
  pose proof (tokens_from_ok content EmptyString (Forall_nil_2 _)) as Hok.
  rewrite Forall_forall in Hok. by destruct (Hok w Hw).
Qed.

Lemma reindexing_changes_nothing_witness :
  exists ix1 ix2,
    index_file scenario_files "texts/doc1.txt" "doc1.txt" (mkIndex hash_table_init [])
      = Some ix1 /\
    index_file scenario_files "texts/doc1.txt" "doc1.txt" ix1 = Some ix2 /\
    forall w, files_of (hash_table ix2) w = files_of (hash_table ix1) w.
Proof.
  apply (reindexing_changes_nothing scenario_files "texts/doc1.txt" "doc1.txt"
           (mkIndex hash_table_init [])).
  - vm_compute. reflexivity.
  - constructor.
Defined.

